(** * Phobos [joints.py]: joint classification, limit extraction and constraint synthesis

    A shallow embedding of [joints.py] and the proofs of its specified
    properties.

    Conventions of the embedding.
    - Python floats are IEEE binary64 numbers: Rocq's primitive [float].
      Python's [==] and [!=] on floats are [PrimFloat.eqb] and its negation.
      A property of a constraint keeps the value assigned to it.
    - A Blender object with its single pose bone is a [Joint]: the bone's
      constraint stack is a list, a reference to one constraint of the stack
      is its position, and the object's custom properties ([joint['k']]) are
      a finite map from strings.
    - Every function of the source that receives [joint] runs in the monad
      [M], whose state holds that object together with the editor mode and
      what was printed or warned. Exceptions are results, and the state
      reached when one is raised is kept.
    - The operators [bpy.ops.pose.constraint_add] and
      [bpy.ops.object.mode_set] act on the active object of the scene.
      [DefineJointConstraintsOperator.execute] makes each link active before
      it calls [setJointConstraints]; the embedding of [setJointConstraints]
      describes that situation, [joint] being the active object. *)

From Stdlib Require Import Floats.
From stdpp Require Import gmap strings list.

Local Open Scope string_scope.
Local Open Scope list_scope.
Set Warnings "-inexact-float".

(** ** Data model *)

(** Values of custom properties. *)
Inductive PropValue :=
| PStr (s : string)
| PFloat (x : float)
| PBool (b : bool).

(** [mathutils.Vector] with three components. *)
Record Vector := mkVector { vx : float; vy : float; vz : float }.

(** A 'LIMIT_LOCATION' constraint. *)
Module LimitLocation.
Record t := mk {
  use_min_x : bool; use_min_y : bool; use_min_z : bool;
  use_max_x : bool; use_max_y : bool; use_max_z : bool;
  min_x : float; min_y : float; min_z : float;
  max_x : float; max_y : float; max_z : float;
  owner_space : string }.

Definition set_use_min_x (v : bool) (c : t) : t :=
  mk v (use_min_y c) (use_min_z c) (use_max_x c) (use_max_y c) (use_max_z c)
     (min_x c) (min_y c) (min_z c) (max_x c) (max_y c) (max_z c) (owner_space c).
Definition set_use_min_y (v : bool) (c : t) : t :=
  mk (use_min_x c) v (use_min_z c) (use_max_x c) (use_max_y c) (use_max_z c)
     (min_x c) (min_y c) (min_z c) (max_x c) (max_y c) (max_z c) (owner_space c).
Definition set_use_min_z (v : bool) (c : t) : t :=
  mk (use_min_x c) (use_min_y c) v (use_max_x c) (use_max_y c) (use_max_z c)
     (min_x c) (min_y c) (min_z c) (max_x c) (max_y c) (max_z c) (owner_space c).
Definition set_use_max_x (v : bool) (c : t) : t :=
  mk (use_min_x c) (use_min_y c) (use_min_z c) v (use_max_y c) (use_max_z c)
     (min_x c) (min_y c) (min_z c) (max_x c) (max_y c) (max_z c) (owner_space c).
Definition set_use_max_y (v : bool) (c : t) : t :=
  mk (use_min_x c) (use_min_y c) (use_min_z c) (use_max_x c) v (use_max_z c)
     (min_x c) (min_y c) (min_z c) (max_x c) (max_y c) (max_z c) (owner_space c).
Definition set_use_max_z (v : bool) (c : t) : t :=
  mk (use_min_x c) (use_min_y c) (use_min_z c) (use_max_x c) (use_max_y c) v
     (min_x c) (min_y c) (min_z c) (max_x c) (max_y c) (max_z c) (owner_space c).
Definition set_min_y (v : float) (c : t) : t :=
  mk (use_min_x c) (use_min_y c) (use_min_z c) (use_max_x c) (use_max_y c) (use_max_z c)
     (min_x c) v (min_z c) (max_x c) (max_y c) (max_z c) (owner_space c).
Definition set_max_y (v : float) (c : t) : t :=
  mk (use_min_x c) (use_min_y c) (use_min_z c) (use_max_x c) (use_max_y c) (use_max_z c)
     (min_x c) (min_y c) (min_z c) (max_x c) v (max_z c) (owner_space c).
Definition set_owner_space (v : string) (c : t) : t :=
  mk (use_min_x c) (use_min_y c) (use_min_z c) (use_max_x c) (use_max_y c) (use_max_z c)
     (min_x c) (min_y c) (min_z c) (max_x c) (max_y c) (max_z c) v.

(** The constraint as the host creates it: no bound active, every bound 0. *)
Definition new : t :=
  mk false false false false false false
     0%float 0%float 0%float 0%float 0%float 0%float "POSE".
End LimitLocation.

(** A 'LIMIT_ROTATION' constraint. *)
Module LimitRotation.
Record t := mk {
  use_limit_x : bool; use_limit_y : bool; use_limit_z : bool;
  min_x : float; min_y : float; min_z : float;
  max_x : float; max_y : float; max_z : float;
  owner_space : string }.

Definition set_use_limit_x (v : bool) (c : t) : t :=
  mk v (use_limit_y c) (use_limit_z c)
     (min_x c) (min_y c) (min_z c) (max_x c) (max_y c) (max_z c) (owner_space c).
Definition set_use_limit_y (v : bool) (c : t) : t :=
  mk (use_limit_x c) v (use_limit_z c)
     (min_x c) (min_y c) (min_z c) (max_x c) (max_y c) (max_z c) (owner_space c).
Definition set_use_limit_z (v : bool) (c : t) : t :=
  mk (use_limit_x c) (use_limit_y c) v
     (min_x c) (min_y c) (min_z c) (max_x c) (max_y c) (max_z c) (owner_space c).
Definition set_min_x (v : float) (c : t) : t :=
  mk (use_limit_x c) (use_limit_y c) (use_limit_z c)
     v (min_y c) (min_z c) (max_x c) (max_y c) (max_z c) (owner_space c).
Definition set_min_y (v : float) (c : t) : t :=
  mk (use_limit_x c) (use_limit_y c) (use_limit_z c)
     (min_x c) v (min_z c) (max_x c) (max_y c) (max_z c) (owner_space c).
Definition set_min_z (v : float) (c : t) : t :=
  mk (use_limit_x c) (use_limit_y c) (use_limit_z c)
     (min_x c) (min_y c) v (max_x c) (max_y c) (max_z c) (owner_space c).
Definition set_max_x (v : float) (c : t) : t :=
  mk (use_limit_x c) (use_limit_y c) (use_limit_z c)
     (min_x c) (min_y c) (min_z c) v (max_y c) (max_z c) (owner_space c).
Definition set_max_y (v : float) (c : t) : t :=
  mk (use_limit_x c) (use_limit_y c) (use_limit_z c)
     (min_x c) (min_y c) (min_z c) (max_x c) v (max_z c) (owner_space c).
Definition set_max_z (v : float) (c : t) : t :=
  mk (use_limit_x c) (use_limit_y c) (use_limit_z c)
     (min_x c) (min_y c) (min_z c) (max_x c) (max_y c) v (owner_space c).
Definition set_owner_space (v : string) (c : t) : t :=
  mk (use_limit_x c) (use_limit_y c) (use_limit_z c)
     (min_x c) (min_y c) (min_z c) (max_x c) (max_y c) (max_z c) v.

(** The constraint as the host creates it: no limit active, every bound 0. *)
Definition new : t :=
  mk false false false 0%float 0%float 0%float 0%float 0%float 0%float "POSE".
End LimitRotation.

(** The two constraint types the module looks for ([c.type]). *)
Inductive ConstraintType := LIMIT_LOCATION | LIMIT_ROTATION.

(** An entry of a bone's constraint stack; [OtherConstraint] is a constraint
    of any other type, of which the module reads nothing. *)
Inductive Constraint :=
| LimitLocationConstraint (c : LimitLocation.t)
| LimitRotationConstraint (c : LimitRotation.t)
| OtherConstraint (type : string).

(** [c.type == ctype] *)
Definition has_type (c : Constraint) (ctype : ConstraintType) : bool :=
  match c, ctype with
  | LimitLocationConstraint _, LIMIT_LOCATION => true
  | LimitRotationConstraint _, LIMIT_ROTATION => true
  | _, _ => false
  end.

(** A freshly added constraint of the given type. *)
Definition new_constraint (ctype : ConstraintType) : Constraint :=
  match ctype with
  | LIMIT_LOCATION => LimitLocationConstraint LimitLocation.new
  | LIMIT_ROTATION => LimitRotationConstraint LimitRotation.new
  end.

(** The armature object: [joint.name], [joint.phobostype],
    [joint.pose.bones[0].constraints], [joint.data.bones[0].vector] and the
    custom properties [joint[...]]. *)
Record Joint := mkJoint {
  name : string;
  phobostype : string;
  constraints : list Constraint;
  bone_vector : Vector;
  props : gmap string PropValue }.

Definition set_constraints (cs : list Constraint) (j : Joint) : Joint :=
  mkJoint (name j) (phobostype j) cs (bone_vector j) (props j).

(** [joint[key] = v] *)
Definition set_prop (key : string) (v : PropValue) (j : Joint) : Joint :=
  mkJoint (name j) (phobostype j) (constraints j) (bone_vector j) (<[key := v]> (props j)).

(** What reaches the console: a line of [print], or a call of
    [warnings.warn]. *)
Inductive Output :=
| Printed (s : string)
| Warned (s : string).

Inductive Exn :=
| Exception (msg : string)
| AttributeError (msg : string)
| TypeError (msg : string).

Inductive Result (A : Type) :=
| Ok (a : A)
| Raise (e : Exn).
Arguments Ok {A} a.
Arguments Raise {A} e.

(** The object in hand and the session around it: the scene's active object
    (by name), the editor mode and the console. *)
Record State := mkState {
  joint : Joint;
  active : option string;
  mode : string;
  stdout : list Output }.

(** ** The monad of the module's functions *)

Definition M (A : Type) : Type := State -> Result A * State.

Definition run {A} (m : M A) (s : State) : Result A * State := m s.

Definition ret {A} (a : A) : M A := fun s => (Ok a, s).

Definition bind {A B} (m : M A) (f : A -> M B) : M B := fun s =>
  match m s with
  | (Ok a, s') => f a s'
  | (Raise e, s') => (Raise e, s')
  end.

Declare Scope joints_scope.
Delimit Scope joints_scope with joints.
Notation "x <- m ;; k" := (bind m (fun x => k))
  (at level 100, m at next level, k at level 200, right associativity) : joints_scope.
Notation "m ;; k" := (bind m (fun _ => k))
  (at level 100, k at level 200, right associativity) : joints_scope.
Local Open Scope joints_scope.

Definition raise {A} (e : Exn) : M A := fun s => (Raise e, s).
Definition lift {A} (r : Result A) : M A := fun s => (r, s).
Definition get_joint : M Joint := fun s => (Ok (joint s), s).
Definition modify_joint (f : Joint -> Joint) : M unit :=
  fun s => (Ok tt, mkState (f (joint s)) (active s) (mode s) (stdout s)).
Definition emit (o : Output) : M unit :=
  fun s => (Ok tt, mkState (joint s) (active s) (mode s) (stdout s ++ [o])).
Definition print (msg : string) : M unit := emit (Printed msg).
Definition warn (msg : string) : M unit := emit (Warned msg).

(** [bpy.ops.object.mode_set(mode=m)] *)
Definition mode_set (m : string) : M unit :=
  fun s => (Ok tt, mkState (joint s) (active s) m (stdout s)).

(** [bpy.context.scene.objects.active = link] *)
Definition set_active (link : Joint) : M unit :=
  fun s => (Ok tt, mkState (joint s) (Some (name link)) (mode s) (stdout s)).

(** [bpy.ops.pose.constraint_add(type=ctype)]: the new constraint goes to the
    end of the active bone's stack. *)
Definition constraint_add (ctype : ConstraintType) : M unit :=
  modify_joint (fun j => set_constraints (constraints j ++ [new_constraint ctype]) j).

(** ** Iterating over the constraint stack *)

(** [for c in joint.pose.bones[0].constraints: ...remove(c)].
    The stack is a linked list of the host, and its iterator steps to the
    successor of a node before it hands that node to the loop body. [pending]
    is the part of the stack [coll] from the node in hand on; when the body
    runs the iterator stands on [next] already, and [remove] unlinks the node
    in hand, which is found [length pending] nodes before the end of [coll]. *)
Fixpoint remove_each (pending coll : list Constraint) : list Constraint :=
  match pending with
  | [] => coll
  | _ :: next => remove_each next (delete (length coll - length pending) coll)
  end.

Definition remove_all_constraints : M unit :=
  modify_joint (fun j => set_constraints (remove_each (constraints j) (constraints j)) j).

(** ** getJointConstraint *)

(** The loop of [getJointConstraint]: [con] is overwritten by every match, so
    the last constraint of type [ctype] wins. [i] is the position of the head
    of [cs] in the stack. *)
Fixpoint last_of_type (ctype : ConstraintType) (i : nat) (cs : list Constraint)
    (con : option nat) : option nat :=
  match cs with
  | [] => con
  | c :: cs' => last_of_type ctype (S i) cs' (if has_type c ctype then Some i else con)
  end.

(** [getJointConstraint(joint, ctype)]: a reference to a constraint of the
    stack, or [None]. *)
Definition getJointConstraint (ctype : ConstraintType) : M (option nat) :=
  j <- get_joint ;;
  ret (last_of_type ctype 0 (constraints j) None).

(** Reading and writing attributes through a reference. [None] has no
    attributes, and a constraint has only those of its own type. *)
Definition no_attribute {A} : M A :=
  raise (AttributeError "object has no such attribute").

Definition loc_attr {A} (c : option nat) (attr : LimitLocation.t -> A) : M A :=
  j <- get_joint ;;
  match c ≫= (constraints j !!.) with
  | Some (LimitLocationConstraint l) => ret (attr l)
  | _ => no_attribute
  end.

Definition rot_attr {A} (c : option nat) (attr : LimitRotation.t -> A) : M A :=
  j <- get_joint ;;
  match c ≫= (constraints j !!.) with
  | Some (LimitRotationConstraint r) => ret (attr r)
  | _ => no_attribute
  end.

Definition set_loc (c : option nat) (upd : LimitLocation.t -> LimitLocation.t) : M unit :=
  j <- get_joint ;;
  match c with
  | Some i =>
      match constraints j !! i with
      | Some (LimitLocationConstraint l) =>
          modify_joint (set_constraints (<[i := LimitLocationConstraint (upd l)]> (constraints j)))
      | _ => no_attribute
      end
  | None => no_attribute
  end.

Definition set_rot (c : option nat) (upd : LimitRotation.t -> LimitRotation.t) : M unit :=
  j <- get_joint ;;
  match c with
  | Some i =>
      match constraints j !! i with
      | Some (LimitRotationConstraint r) =>
          modify_joint (set_constraints (<[i := LimitRotationConstraint (upd r)]> (constraints j)))
      | _ => no_attribute
      end
  | None => no_attribute
  end.

(** ** deriveJointType *)

(** A Python list of three booleans. *)
Definition Flags : Type := bool * bool * bool.

(** [sum] of three booleans. *)
Definition sum_flags (f : Flags) : nat :=
  let '(a, b, c) := f in Nat.b2n a + Nat.b2n b + Nat.b2n c.

(** Python's [x != 0] on a float. *)
Definition nonzero (x : float) : bool := negb (PrimFloat.eqb x 0%float).

(** The variables [cloc], [crot] and [limrot] of [deriveJointType]. *)
Record Scan := mkScan {
  cloc : option Flags;
  crot : option Flags;
  limrot : option LimitRotation.t }.

(** The list assigned to [cloc] at a 'LIMIT_LOCATION' constraint, and the
    one assigned to [crot] at a 'LIMIT_ROTATION' constraint. *)
Definition cloc_of (c : LimitLocation.t) : Flags :=
  (LimitLocation.use_min_x c && PrimFloat.eqb (LimitLocation.min_x c) (LimitLocation.max_x c),
   LimitLocation.use_min_y c && PrimFloat.eqb (LimitLocation.min_y c) (LimitLocation.max_y c),
   LimitLocation.use_min_z c && PrimFloat.eqb (LimitLocation.min_z c) (LimitLocation.max_z c)).

Definition crot_of (c : LimitRotation.t) : Flags :=
  (LimitRotation.use_limit_x c && (nonzero (LimitRotation.min_x c) || nonzero (LimitRotation.max_x c)),
   LimitRotation.use_limit_y c && (nonzero (LimitRotation.min_y c) || nonzero (LimitRotation.max_y c)),
   LimitRotation.use_limit_z c && (nonzero (LimitRotation.min_z c) || nonzero (LimitRotation.max_z c))).

(** One turn of the loop over the constraints. *)
Definition scan_constraint (v : Scan) (c : Constraint) : Scan :=
  match c with
  | LimitLocationConstraint c => mkScan (Some (cloc_of c)) (crot v) (limrot v)
  | LimitRotationConstraint c => mkScan (cloc v) (Some (crot_of c)) (Some c)
  | OtherConstraint _ => v
  end.

Definition scan_constraints (cs : list Constraint) : Scan :=
  foldl scan_constraint (mkScan None None None) cs.

(** Python's truth value of [None] or a list of three elements, and of
    [None] or an object. *)
Definition truthy {A} (x : option A) : bool :=
  match x with
  | Some _ => true
  | None => false
  end.

(** [n == k] where [n] may be [None]. *)
Definition is_count (n : option nat) (k : nat) : bool :=
  match n with
  | Some m => Nat.eqb m k
  | None => false
  end.

(** The decision table, from [ncloc = ...] to the last [elif]. [sum(crot)]
    of a [crot] that is [None] is a [TypeError]. *)
Definition decide_type (v : Scan) : Result string :=
  let jtype := "floating" in
  let ncloc := sum_flags <$> cloc v in
  let ncrot := (fun c => sum_flags (LimitRotation.use_limit_x c, LimitRotation.use_limit_y c,
                                      LimitRotation.use_limit_z c)) <$> limrot v in
  if truthy (cloc v) then
    if is_count ncloc 3 then
      if is_count ncrot 3 then
        match crot v with
        | Some f => if Nat.ltb 0 (sum_flags f) then Ok "revolute" else Ok "fixed"
        | None => Raise (TypeError "'NoneType' object is not iterable")
        end
      else if is_count ncrot 2 then Ok "continuous"
      else Ok jtype
    else if is_count ncloc 2 then Ok "prismatic"
    else if is_count ncloc 1 then Ok "planar"
    else Ok jtype
  else Ok jtype.

(** [joint['joint/type'] != jtype] for a stored value. *)
Definition differs (v : PropValue) (jtype : string) : bool :=
  match v with
  | PStr s => negb (String.eqb s jtype)
  | _ => true
  end.

Definition deriveJointType (adjust : bool) : M (string * option Flags) :=
  j <- get_joint ;;
  let v := scan_constraints (constraints j) in
  jtype <- lift (decide_type v) ;;
  (match props j !! "joint/type" with
   | Some stored =>
       if differs stored jtype then
         warn ("Type of joint " +:+ name j +:+ " does not match constraints!") ;;
         (if adjust then
            modify_joint (set_prop "joint/type" (PStr jtype)) ;;
            print ("Changed type of joint'" +:+ name j +:+ " to " +:+ jtype +:+ "'.")
          else ret tt)
       else ret tt
   | None => ret tt
   end) ;;
  ret (jtype, crot v).

(** ** getJointConstraints *)

(** The [limits] tuple: two or four scalars. *)
Inductive Limits :=
| Limits2 (lo hi : float)
| Limits4 (lo1 hi1 lo2 hi2 : float).

(** [s in [...]] for a list of strings. *)
Definition is_in (s : string) (l : list string) : bool := existsb (String.eqb s) l.

(** [int(b)] stored in a vector. *)
Definition of_bool (b : bool) : float := if b then 1%float else 0%float.

(** The list [freeloc] of [getJointConstraints]. *)
Definition freeloc_of (c : LimitLocation.t) : Flags :=
  (LimitLocation.use_min_x c && LimitLocation.use_max_x c
     && PrimFloat.eqb (LimitLocation.min_x c) (LimitLocation.max_x c),
   LimitLocation.use_min_y c && LimitLocation.use_max_y c
     && PrimFloat.eqb (LimitLocation.min_y c) (LimitLocation.max_y c),
   LimitLocation.use_min_z c && LimitLocation.use_max_z c
     && PrimFloat.eqb (LimitLocation.min_z c) (LimitLocation.max_z c)).

Definition under_defined (j : Joint) : Exn :=
  Exception ("JointTypeError: under-defined constraints in joint (" +:+ name j +:+ ").").

Section Host.
(** [mathutils.Vector.normalized], which the host computes. *)
Variable normalized : Vector -> Vector.

Definition getJointConstraints : M (option Vector * option Limits) :=
  derived <- deriveJointType true ;;
  let '(jt, crot) := derived in
  j <- get_joint ;;
  if negb (is_in jt ["floating"; "fixed"]) then
    match (if is_in jt ["revolute"; "continuous"] then crot else None) with
    | Some (crot0, crot1, crot2) =>
        c <- getJointConstraint LIMIT_ROTATION ;;
        let axis := normalized (bone_vector j) in
        if crot0 then
          limits <- rot_attr c (fun c => Limits2 (LimitRotation.min_x c) (LimitRotation.max_x c)) ;;
          ret (Some axis, Some limits)
        else if crot1 then
          limits <- rot_attr c (fun c => Limits2 (LimitRotation.min_y c) (LimitRotation.max_y c)) ;;
          ret (Some axis, Some limits)
        else if crot2 then
          limits <- rot_attr c (fun c => Limits2 (LimitRotation.min_z c) (LimitRotation.max_z c)) ;;
          ret (Some axis, Some limits)
        else ret (Some axis, None)
    | None =>
        c <- getJointConstraint LIMIT_LOCATION ;;
        if negb (truthy c) then raise (under_defined j)
        else
          freeloc <- loc_attr c freeloc_of ;;
          let '(freeloc0, freeloc1, freeloc2) := freeloc in
          if String.eqb jt "prismatic" then
            if Nat.eqb (sum_flags freeloc) 2 then
              let axis := normalized (bone_vector j) in
              if freeloc0 then
                limits <- loc_attr c (fun c => Limits2 (LimitLocation.min_x c) (LimitLocation.max_x c)) ;;
                ret (Some axis, Some limits)
              else if freeloc1 then
                limits <- loc_attr c (fun c => Limits2 (LimitLocation.min_y c) (LimitLocation.max_y c)) ;;
                ret (Some axis, Some limits)
              else if freeloc2 then
                limits <- loc_attr c (fun c => Limits2 (LimitLocation.min_z c) (LimitLocation.max_z c)) ;;
                ret (Some axis, Some limits)
              else ret (Some axis, None)
            else raise (under_defined j)
          else if String.eqb jt "planar" then
            if Nat.eqb (sum_flags freeloc) 1 then
              let axis := mkVector (of_bool freeloc0) (of_bool freeloc1) (of_bool freeloc2) in
              if nonzero (vx axis) then
                limits <- loc_attr c (fun c => Limits4 (LimitLocation.min_y c) (LimitLocation.max_y c)
                                                      (LimitLocation.min_z c) (LimitLocation.max_z c)) ;;
                ret (Some axis, Some limits)
              else if nonzero (vy axis) then
                limits <- loc_attr c (fun c => Limits4 (LimitLocation.min_x c) (LimitLocation.max_x c)
                                                      (LimitLocation.min_z c) (LimitLocation.max_z c)) ;;
                ret (Some axis, Some limits)
              else if nonzero (vz axis) then
                limits <- loc_attr c (fun c => Limits4 (LimitLocation.min_x c) (LimitLocation.max_x c)
                                                      (LimitLocation.min_y c) (LimitLocation.max_y c)) ;;
                ret (Some axis, Some limits)
              else ret (Some axis, None)
            else raise (under_defined j)
          else ret (None, None)
    end
  else ret (None, None).
End Host.

(** ** setJointConstraints *)

Definition setJointConstraints (jointtype : string) (lower upper : float) : M unit :=
  mode_set "POSE" ;;
  remove_all_constraints ;;
  j <- get_joint ;;
  if String.eqb (phobostype j) "link" then
    (if String.eqb jointtype "revolute" then
       (* fix location *)
       constraint_add LIMIT_LOCATION ;;
       cloc <- getJointConstraint LIMIT_LOCATION ;;
       set_loc cloc (LimitLocation.set_use_min_x true) ;;
       set_loc cloc (LimitLocation.set_use_min_y true) ;;
       set_loc cloc (LimitLocation.set_use_min_z true) ;;
       set_loc cloc (LimitLocation.set_use_max_x true) ;;
       set_loc cloc (LimitLocation.set_use_max_y true) ;;
       set_loc cloc (LimitLocation.set_use_max_z true) ;;
       set_loc cloc (LimitLocation.set_owner_space "LOCAL") ;;
       (* fix rotation x, z and limit y *)
       constraint_add LIMIT_ROTATION ;;
       crot <- getJointConstraint LIMIT_ROTATION ;;
       set_rot crot (LimitRotation.set_use_limit_x true) ;;
       set_rot crot (LimitRotation.set_min_x 0%float) ;;
       set_rot crot (LimitRotation.set_max_x 0%float) ;;
       set_rot crot (LimitRotation.set_use_limit_y true) ;;
       set_rot crot (LimitRotation.set_min_y lower) ;;
       set_rot crot (LimitRotation.set_max_y upper) ;;
       set_rot crot (LimitRotation.set_use_limit_z true) ;;
       set_rot crot (LimitRotation.set_min_z 0%float) ;;
       set_rot crot (LimitRotation.set_max_z 0%float) ;;
       set_rot crot (LimitRotation.set_owner_space "LOCAL")
     else if String.eqb jointtype "continuous" then
       (* fix location *)
       constraint_add LIMIT_LOCATION ;;
       cloc <- getJointConstraint LIMIT_LOCATION ;;
       set_loc cloc (LimitLocation.set_use_min_x true) ;;
       set_loc cloc (LimitLocation.set_use_min_y true) ;;
       set_loc cloc (LimitLocation.set_use_min_z true) ;;
       set_loc cloc (LimitLocation.set_use_max_x true) ;;
       set_loc cloc (LimitLocation.set_use_max_y true) ;;
       set_loc cloc (LimitLocation.set_use_max_z true) ;;
       set_loc cloc (LimitLocation.set_owner_space "LOCAL") ;;
       (* fix rotation x, z *)
       constraint_add LIMIT_ROTATION ;;
       crot <- getJointConstraint LIMIT_ROTATION ;;
       set_rot crot (LimitRotation.set_use_limit_x true) ;;
       set_rot crot (LimitRotation.set_min_x 0%float) ;;
       set_rot crot (LimitRotation.set_max_x 0%float) ;;
       set_rot crot (LimitRotation.set_use_limit_z true) ;;
       set_rot crot (LimitRotation.set_min_z 0%float) ;;
       set_rot crot (LimitRotation.set_max_z 0%float) ;;
       set_rot crot (LimitRotation.set_owner_space "LOCAL")
     else if String.eqb jointtype "prismatic" then
       (* fix location except for y axis *)
       constraint_add LIMIT_LOCATION ;;
       cloc <- getJointConstraint LIMIT_LOCATION ;;
       set_loc cloc (LimitLocation.set_use_min_x true) ;;
       set_loc cloc (LimitLocation.set_use_min_y true) ;;
       set_loc cloc (LimitLocation.set_use_min_z true) ;;
       set_loc cloc (LimitLocation.set_use_max_x true) ;;
       set_loc cloc (LimitLocation.set_use_max_y true) ;;
       set_loc cloc (LimitLocation.set_use_max_z true) ;;
       (if PrimFloat.eqb lower upper then
          set_loc cloc (LimitLocation.set_use_min_y false) ;;
          set_loc cloc (LimitLocation.set_use_max_y false)
        else
          set_loc cloc (LimitLocation.set_min_y lower) ;;
          set_loc cloc (LimitLocation.set_max_y upper)) ;;
       set_loc cloc (LimitLocation.set_owner_space "LOCAL") ;;
       (* fix rotation *)
       constraint_add LIMIT_ROTATION ;;
       crot <- getJointConstraint LIMIT_ROTATION ;;
       set_rot crot (LimitRotation.set_use_limit_x true) ;;
       set_rot crot (LimitRotation.set_min_x 0%float) ;;
       set_rot crot (LimitRotation.set_max_x 0%float) ;;
       set_rot crot (LimitRotation.set_use_limit_y true) ;;
       set_rot crot (LimitRotation.set_min_y 0%float) ;;
       set_rot crot (LimitRotation.set_max_y 0%float) ;;
       set_rot crot (LimitRotation.set_use_limit_z true) ;;
       set_rot crot (LimitRotation.set_min_z 0%float) ;;
       set_rot crot (LimitRotation.set_max_z 0%float) ;;
       set_rot crot (LimitRotation.set_owner_space "LOCAL")
     else if String.eqb jointtype "fixed" then
       (* fix location *)
       constraint_add LIMIT_LOCATION ;;
       cloc <- getJointConstraint LIMIT_LOCATION ;;
       set_loc cloc (LimitLocation.set_use_min_x true) ;;
       set_loc cloc (LimitLocation.set_use_min_y true) ;;
       set_loc cloc (LimitLocation.set_use_min_z true) ;;
       set_loc cloc (LimitLocation.set_use_max_x true) ;;
       set_loc cloc (LimitLocation.set_use_max_y true) ;;
       set_loc cloc (LimitLocation.set_use_max_z true) ;;
       set_loc cloc (LimitLocation.set_owner_space "LOCAL") ;;
       (* fix rotation *)
       constraint_add LIMIT_ROTATION ;;
       crot <- getJointConstraint LIMIT_ROTATION ;;
       set_rot crot (LimitRotation.set_use_limit_x true) ;;
       set_rot crot (LimitRotation.set_min_x 0%float) ;;
       set_rot crot (LimitRotation.set_max_x 0%float) ;;
       set_rot crot (LimitRotation.set_use_limit_y true) ;;
       set_rot crot (LimitRotation.set_min_y 0%float) ;;
       set_rot crot (LimitRotation.set_max_y 0%float) ;;
       set_rot crot (LimitRotation.set_use_limit_z true) ;;
       set_rot crot (LimitRotation.set_min_z 0%float) ;;
       set_rot crot (LimitRotation.set_max_z 0%float) ;;
       set_rot crot (LimitRotation.set_owner_space "LOCAL")
     else if String.eqb jointtype "floating" then
       (* 6DOF *)
       ret tt
     else if String.eqb jointtype "planar" then
       (* fix location *)
       constraint_add LIMIT_LOCATION ;;
       cloc <- getJointConstraint LIMIT_LOCATION ;;
       set_loc cloc (LimitLocation.set_use_min_y true) ;;
       set_loc cloc (LimitLocation.set_use_max_y true) ;;
       set_loc cloc (LimitLocation.set_owner_space "LOCAL") ;;
       (* fix rotation *)
       constraint_add LIMIT_ROTATION ;;
       crot <- getJointConstraint LIMIT_ROTATION ;;
       set_rot crot (LimitRotation.set_use_limit_x true) ;;
       set_rot crot (LimitRotation.set_min_x 0%float) ;;
       set_rot crot (LimitRotation.set_max_x 0%float) ;;
       set_rot crot (LimitRotation.set_use_limit_y true) ;;
       set_rot crot (LimitRotation.set_min_y 0%float) ;;
       set_rot crot (LimitRotation.set_max_y 0%float) ;;
       set_rot crot (LimitRotation.set_use_limit_z true) ;;
       set_rot crot (LimitRotation.set_min_z 0%float) ;;
       set_rot crot (LimitRotation.set_max_z 0%float) ;;
       set_rot crot (LimitRotation.set_owner_space "LOCAL")
     else
       print "Error: Unknown joint type") ;;
    modify_joint (set_prop "joint/type" (PStr jointtype)) ;;
    mode_set "OBJECT"
  else ret tt.

(** ** The two operators *)

(** The scene a batch operator works on: [context.selected_objects] and the
    session. *)
Record Scene := mkScene {
  selected_objects : list Joint;
  scene_active : option string;
  scene_mode : string;
  scene_stdout : list Output }.

(** [for link in context.selected_objects: body]. [visited] are the objects
    the loop is done with. An exception leaves the loop. *)
Fixpoint for_each (body : Joint -> M unit) (visited todo : list Joint)
    (act : option string) (md : string) (out : list Output) : Result unit * Scene :=
  match todo with
  | [] => (Ok tt, mkScene visited act md out)
  | link :: rest =>
      match body link (mkState link act md out) with
      | (Ok _, s) => for_each body (visited ++ [joint s]) rest (active s) (mode s) (stdout s)
      | (Raise e, s) => (Raise e, mkScene (visited ++ joint s :: rest) (active s) (mode s) (stdout s))
      end
  end.

Definition for_selected_objects (body : Joint -> M unit) (sc : Scene) : Result unit * Scene :=
  for_each body [] (selected_objects sc) (scene_active sc) (scene_mode sc) (scene_stdout sc).

(** [math.pi] *)
Definition pi : float := 0x1.921fb54442d18p+1%float.

(** [math.radians(x)] *)
Definition radians (x : float) : float := (x * (pi / 180))%float.

Module DefineJointConstraintsOperator.
Record t := mk {
  passive : bool;
  degrees : bool;
  joint_type : string;
  lower : float;
  upper : float;
  maxeffort : float;
  maxvelocity : float }.

(** The body of the loop of [execute]. *)
Definition execute_link (self : t) (lower upper : float) (link : Joint) : M unit :=
  set_active link ;;
  setJointConstraints (joint_type self) lower upper ;;
  (if negb (String.eqb (joint_type self) "fixed") then
     modify_joint (set_prop "joint/maxeffort" (PFloat (maxeffort self))) ;;
     modify_joint (set_prop "joint/maxvelocity" (PFloat (maxvelocity self)))
   else ret tt) ;;
  (if passive self then modify_joint (set_prop "joint/passive" (PBool true))
   else ret tt).

Definition execute (self : t) (context : Scene) : Result string * Scene :=
  let lower := if degrees self then radians (lower self) else lower self in
  let upper := if degrees self then radians (upper self) else upper self in
  match for_selected_objects (execute_link self lower upper) context with
  | (Ok _, sc) => (Ok "FINISHED", sc)
  | (Raise e, sc) => (Raise e, sc)
  end.
End DefineJointConstraintsOperator.

Module AttachMotorOperator.
Record t := mk {
  P : float;
  I : float;
  D : float;
  vmax : float;
  taumax : float;
  motortype : string }.

(** The body of the loop of [execute]. *)
Definition execute_joint (self : t) (joint : Joint) : M unit :=
  if String.eqb (phobostype joint) "link" then
    (if String.eqb (motortype self) "PID" then
       modify_joint (set_prop "motor/p" (PFloat (P self))) ;;
       modify_joint (set_prop "motor/i" (PFloat (I self))) ;;
       modify_joint (set_prop "motor/d" (PFloat (D self)))
     else ret tt) ;;
    modify_joint (set_prop "motor/maxSpeed" (PFloat (vmax self * 2 * pi)%float)) ;;
    modify_joint (set_prop "motor/maxEffort" (PFloat (taumax self))) ;;
    modify_joint (set_prop "motor/type" (PStr (motortype self)))
  else ret tt.

Definition execute (self : t) (context : Scene) : Result string * Scene :=
  match for_selected_objects (execute_joint self) context with
  | (Ok _, sc) => (Ok "FINISHED", sc)
  | (Raise e, sc) => (Raise e, sc)
  end.
End AttachMotorOperator.

(** ** Notions used in the statements *)

(** The last constraint of each of the two types in a stack. *)
Definition last_location (cs : list Constraint) : option LimitLocation.t :=
  foldl (fun found c => match c with LimitLocationConstraint l => Some l | _ => found end) None cs.

Definition last_rotation (cs : list Constraint) : option LimitRotation.t :=
  foldl (fun found c => match c with LimitRotationConstraint r => Some r | _ => found end) None cs.

(** What [deriveJointType] returns for a stack of constraints. *)
Definition classification (cs : list Constraint) : Result (string * option Flags) :=
  match decide_type (scan_constraints cs) with
  | Ok jtype => Ok (jtype, crot (scan_constraints cs))
  | Raise e => Raise e
  end.

(** The type [deriveJointType(joint)] derives, its first result. *)
Definition derived_type (s : State) : Result string :=
  match fst (run (deriveJointType false) s) with
  | Ok (jtype, _) => Ok jtype
  | Raise e => Raise e
  end.

(** The joint types [setJointConstraints] knows. *)
Definition known_types : list string :=
  ["revolute"; "continuous"; "prismatic"; "fixed"; "floating"; "planar"].

(** A state whose bone has lost its constraints. *)
Definition cleared (s : State) : State :=
  mkState (set_constraints [] (joint s)) (active s) (mode s) (stdout s).

(** The constraints and the console output [setJointConstraints] produces,
    read off a run on a link without constraints. *)
Definition blank_link : State :=
  mkState (mkJoint "" "link" [] (mkVector 0 0 0) ∅) None "OBJECT" [].

Definition installed (jointtype : string) (lower upper : float) : list Constraint :=
  constraints (joint (snd (run (setJointConstraints jointtype lower upper) blank_link))).

Definition logged (jointtype : string) : list Output :=
  stdout (snd (run (setJointConstraints jointtype 0 0) blank_link)).

(** A location constraint that locks the three axes at 0, and a rotation
    constraint that does the same. *)
Definition locked_location : Constraint :=
  LimitLocationConstraint
    (LimitLocation.mk true true true true true true 0 0 0 0 0 0 "LOCAL").

Definition locked_rotation : Constraint :=
  LimitRotationConstraint (LimitRotation.mk true true true 0 0 0 0 0 0 "LOCAL").

(** The limits returned for a revolute or continuous joint: those of the
    first axis, in the order X, Y, Z, whose flag in [crot] is set. *)
Definition rotation_limits (r : LimitRotation.t) : option Limits :=
  let '(x, y, z) := crot_of r in
  if x then Some (Limits2 (LimitRotation.min_x r) (LimitRotation.max_x r))
  else if y then Some (Limits2 (LimitRotation.min_y r) (LimitRotation.max_y r))
  else if z then Some (Limits2 (LimitRotation.min_z r) (LimitRotation.max_z r))
  else None.

(** The result for a prismatic joint, by the axes whose [freeloc] flag is
    set, that is, which are locked with both bounds active and equal. *)
Definition prismatic_result (normalized : Vector -> Vector) (l : LimitLocation.t) (j : Joint)
    : Result (option Vector * option Limits) :=
  match freeloc_of l with
  | (true, true, false) | (true, false, true) =>
      Ok (Some (normalized (bone_vector j)),
          Some (Limits2 (LimitLocation.min_x l) (LimitLocation.max_x l)))
  | (false, true, true) =>
      Ok (Some (normalized (bone_vector j)),
          Some (Limits2 (LimitLocation.min_y l) (LimitLocation.max_y l)))
  | _ => Raise (under_defined j)
  end.

(** The result for a planar joint, by the one locked axis. *)
Definition planar_result (l : LimitLocation.t) (j : Joint)
    : Result (option Vector * option Limits) :=
  match freeloc_of l with
  | (true, false, false) =>
      Ok (Some (mkVector 1 0 0),
          Some (Limits4 (LimitLocation.min_y l) (LimitLocation.max_y l)
                        (LimitLocation.min_z l) (LimitLocation.max_z l)))
  | (false, true, false) =>
      Ok (Some (mkVector 0 1 0),
          Some (Limits4 (LimitLocation.min_x l) (LimitLocation.max_x l)
                        (LimitLocation.min_z l) (LimitLocation.max_z l)))
  | (false, false, true) =>
      Ok (Some (mkVector 0 0 1),
          Some (Limits4 (LimitLocation.min_x l) (LimitLocation.max_x l)
                        (LimitLocation.min_y l) (LimitLocation.max_y l)))
  | _ => Raise (under_defined j)
  end.

(** The free translation axes in the words of the specification: an axis is
    free when it is not locked with min == max and both bounds active. *)
Definition spec_free_axes (l : LimitLocation.t) : Flags :=
  let '(x, y, z) := freeloc_of l in (negb x, negb y, negb z).

(** [joint/maxeffort] and [joint/maxvelocity] read the same on both objects. *)
Definition keeps_effort_and_velocity (link link' : Joint) : Prop :=
  props link' !! "joint/maxeffort" = props link !! "joint/maxeffort"
  /\ props link' !! "joint/maxvelocity" = props link !! "joint/maxvelocity".

(** What [AttachMotorOperator.execute] leaves on an object [j], which has
    become [j']. *)
Definition motor_attached (self : AttachMotorOperator.t) (j j' : Joint) : Prop :=
  if String.eqb (phobostype j) "link" then
    props j' !! "motor/maxSpeed" = Some (PFloat (AttachMotorOperator.vmax self * 2 * pi)%float)
    /\ props j' !! "motor/maxEffort" = Some (PFloat (AttachMotorOperator.taumax self))
    /\ (if String.eqb (AttachMotorOperator.motortype self) "PID" then
          props j' !! "motor/p" = Some (PFloat (AttachMotorOperator.P self))
          /\ props j' !! "motor/i" = Some (PFloat (AttachMotorOperator.I self))
          /\ props j' !! "motor/d" = Some (PFloat (AttachMotorOperator.D self))
        else
          props j' !! "motor/p" = props j !! "motor/p"
          /\ props j' !! "motor/i" = props j !! "motor/i"
          /\ props j' !! "motor/d" = props j !! "motor/d")
  else j' = j.

(** ** Concrete inputs *)

(** A normalisation in double precision, for the concrete runs. *)
Definition normalized64 (v : Vector) : Vector :=
  let d := PrimFloat.sqrt (vx v * vx v + vy v * vy v + vz v * vz v)%float in
  if PrimFloat.eqb d 0 then mkVector 0 0 0
  else mkVector (vx v / d) (vy v / d) (vz v / d).

(** A link without constraints and without properties, the active object. *)
Definition example_link : State :=
  mkState (mkJoint "joint1" "link" [] (mkVector 0 1 0) ∅) (Some "joint1") "OBJECT" [].

Definition revolute_link : State :=
  snd (run (setJointConstraints "revolute" 0 1) example_link).
Definition continuous_link : State :=
  snd (run (setJointConstraints "continuous" 0 0) example_link).
Definition planar_link : State :=
  snd (run (setJointConstraints "planar" 0 0) example_link).

(** A link whose only constraint bounds X from below at 0, the upper bound
    of X being inactive. *)
Definition min_only_link : State :=
  mkState (mkJoint "joint1" "link"
             [LimitLocationConstraint
                (LimitLocation.mk true false false false false false 0 0 0 0 0 0 "LOCAL")]
             (mkVector 0 1 0) ∅)
          (Some "joint1") "OBJECT" [].

Definition fixed_operator : DefineJointConstraintsOperator.t :=
  DefineJointConstraintsOperator.mk true false "fixed" 0 0 5 2.

Definition example_scene : Scene :=
  mkScene [joint example_link;
           mkJoint "body" "visual" [OtherConstraint "COPY_ROTATION"] (mkVector 1 0 0)
                   (<["joint/maxeffort" := PFloat 7]> ∅)]
          None "OBJECT" [].

Definition pid_motor : AttachMotorOperator.t :=
  AttachMotorOperator.mk 1.5 0.25 0.125 1.0 2.0 "PID".

(** ** Further notions and inputs *)

(** [register] and [unregister] *)
Definition register : M unit := print "Registering joints...".
Definition unregister : M unit := print "Unregistering joints...".

(** The test of the consistency check of [deriveJointType]:
    ['joint/type' in joint and joint['joint/type'] != jtype]. *)
Definition mismatch (j : Joint) (jtype : string) : bool :=
  match props j !! "joint/type" with
  | Some stored => differs stored jtype
  | None => false
  end.

(** The warning of the consistency check. *)
Definition mismatch_warning (j : Joint) : Output :=
  Warned ("Type of joint " +:+ name j +:+ " does not match constraints!").

(** A link stored as fixed whose stack holds, among other constraints and
    stale limit constraints, the two constraints of [revolute_link] last of
    their type. *)
Definition cluttered_link : State :=
  mkState (mkJoint "joint2" "link"
             [OtherConstraint "IK";
              LimitLocationConstraint LimitLocation.new;
              LimitRotationConstraint LimitRotation.new;
              locked_location;
              OtherConstraint "COPY_ROTATION";
              LimitRotationConstraint (LimitRotation.mk true true true 0 0 0 0 1 0 "LOCAL")]
             (mkVector 1 0 0)
             (<["joint/type" := PStr "fixed"]> ∅))
          None "POSE" [].

(** On each axis whose lower bound is active the upper bound is active too. *)
Definition upper_bounds_active (l : LimitLocation.t) : bool :=
  implb (LimitLocation.use_min_x l) (LimitLocation.use_max_x l)
  && implb (LimitLocation.use_min_y l) (LimitLocation.use_max_y l)
  && implb (LimitLocation.use_min_z l) (LimitLocation.use_max_z l).


(** ** Notions for the two operators *)

(** The bounds [DefineJointConstraintsOperator.execute] passes on: converted
    to radians when [degrees] is set. *)
Definition passed_lower (self : DefineJointConstraintsOperator.t) : float :=
  if DefineJointConstraintsOperator.degrees self
  then radians (DefineJointConstraintsOperator.lower self)
  else DefineJointConstraintsOperator.lower self.

Definition passed_upper (self : DefineJointConstraintsOperator.t) : float :=
  if DefineJointConstraintsOperator.degrees self
  then radians (DefineJointConstraintsOperator.upper self)
  else DefineJointConstraintsOperator.upper self.

(** What the loop body of each operator makes of one selected object. *)
Definition constrained (self : DefineJointConstraintsOperator.t) (link : Joint) : Joint :=
  joint (snd (DefineJointConstraintsOperator.execute_link self (passed_lower self)
                (passed_upper self) link (mkState link None "OBJECT" []))).

Definition motorized (self : AttachMotorOperator.t) (j : Joint) : Joint :=
  joint (snd (AttachMotorOperator.execute_joint self j (mkState j None "OBJECT" []))).

(** The properties [DefineJointConstraintsOperator.execute] writes after the
    call of [setJointConstraints]. *)
Definition effort_and_passive (self : DefineJointConstraintsOperator.t)
    (pr : gmap string PropValue) : gmap string PropValue :=
  let pr := if negb (String.eqb (DefineJointConstraintsOperator.joint_type self) "fixed")
            then <["joint/maxvelocity" := PFloat (DefineJointConstraintsOperator.maxvelocity self)]>
                   (<["joint/maxeffort" := PFloat (DefineJointConstraintsOperator.maxeffort self)]> pr)
            else pr in
  if DefineJointConstraintsOperator.passive self
  then <["joint/passive" := PBool true]> pr
  else pr.

(** The properties [AttachMotorOperator.execute] writes on a link. *)
Definition motor_props (self : AttachMotorOperator.t)
    (pr : gmap string PropValue) : gmap string PropValue :=
  let pr := if String.eqb (AttachMotorOperator.motortype self) "PID"
            then <["motor/d" := PFloat (AttachMotorOperator.D self)]>
                   (<["motor/i" := PFloat (AttachMotorOperator.I self)]>
                      (<["motor/p" := PFloat (AttachMotorOperator.P self)]> pr))
            else pr in
  <["motor/type" := PStr (AttachMotorOperator.motortype self)]>
    (<["motor/maxEffort" := PFloat (AttachMotorOperator.taumax self)]>
       (<["motor/maxSpeed" := PFloat (AttachMotorOperator.vmax self * 2 * pi)%float]> pr)).

(** The keys [AttachMotorOperator.execute] writes. *)
Definition motor_keys : list string :=
  ["motor/p"; "motor/i"; "motor/d"; "motor/maxSpeed"; "motor/maxEffort"; "motor/type"].




(** What [AttachMotorOperator.execute] leaves alone on an object, and the
    motor type it stores on a link. *)
Definition motor_frame (self : AttachMotorOperator.t) (j j' : Joint) : Prop :=
  name j' = name j
  /\ phobostype j' = phobostype j
  /\ bone_vector j' = bone_vector j
  /\ constraints j' = constraints j
  /\ (forall key, key ∉ motor_keys -> props j' !! key = props j !! key)
  /\ (phobostype j = "link" ->
      props j' !! "motor/type" = Some (PStr (AttachMotorOperator.motortype self))).


(** The number of rotation axes with an active limit: [ncrot]. *)
Definition active_limits (r : LimitRotation.t) : nat :=
  sum_flags (LimitRotation.use_limit_x r, LimitRotation.use_limit_y r,
             LimitRotation.use_limit_z r).

(** A link that [setJointConstraints] has set up as prismatic. *)
Definition prismatic_link : State :=
  snd (run (setJointConstraints "prismatic" (-0.1) 0.1) example_link).

(** * Proofs *)

(** Membership of a string in an explicit list, case by case, and its
    refutation when the string is another literal. *)
Ltac elem_cases H :=
  repeat (apply elem_of_cons in H as [->|H]); try (by apply elem_of_nil in H).

Ltac not_elem H :=
  repeat (apply elem_of_cons in H as [H|H]; [discriminate H|]); by apply elem_of_nil in H.

(** ** The removal loop *)

Lemma remove_each_suffix (pending before : list Constraint) :
  remove_each pending (before ++ pending) = before.
Proof.
  revert before. induction pending as [|c next IH]; intros before; simpl.
  - apply app_nil_r.
  - rewrite length_app. simpl.
    replace (length before + S (length next) - S (length next)) with (length before) by lia.
    rewrite delete_middle. apply IH.
Qed.

Lemma remove_each_all cs : remove_each cs cs = [].
Proof. apply (remove_each_suffix cs []). Qed.

Lemma clear_then (k : M unit) s :
  run (mode_set "POSE" ;; remove_all_constraints ;; k) s
  = run (mode_set "POSE" ;; k) (cleared s).
Proof.
  unfold run, bind, mode_set, remove_all_constraints, modify_joint, cleared. simpl.
  rewrite remove_each_all. reflexivity.
Qed.

(** ** The scan of deriveJointType and getJointConstraint agree *)

Lemma scan_constraints_last cs :
  scan_constraints cs
  = mkScan (cloc_of <$> last_location cs) (crot_of <$> last_rotation cs) (last_rotation cs).
Proof.
  unfold scan_constraints, last_location, last_rotation.
  induction cs as [|c cs IH] using rev_ind; [reflexivity|].
  rewrite !foldl_snoc, IH. destruct c; reflexivity.
Qed.

Lemma last_of_type_snoc ctype i cs c con :
  last_of_type ctype i (cs ++ [c]) con
  = if has_type c ctype then Some (i + length cs) else last_of_type ctype i cs con.
Proof.
  revert i con. induction cs as [|d cs IH]; intros i con; simpl.
  - rewrite Nat.add_0_r. reflexivity.
  - rewrite IH. replace (S i + length cs) with (i + S (length cs)) by lia. reflexivity.
Qed.

Lemma last_of_type_lt ctype cs k :
  last_of_type ctype 0 cs None = Some k -> k < length cs.
Proof.
  revert k. induction cs as [|c cs IH] using rev_ind; intros k; [discriminate|].
  rewrite last_of_type_snoc, length_app. simpl.
  destruct (has_type c ctype).
  - intros [= <-]. lia.
  - intros H. apply IH in H. lia.
Qed.

Lemma lookup_last_of_type_snoc ctype cs (c : Constraint) :
  last_of_type ctype 0 cs None ≫= ((cs ++ [c]) !!.)
  = last_of_type ctype 0 cs None ≫= (cs !!.).
Proof.
  destruct (last_of_type ctype 0 cs None) as [k|] eqn:E; [|reflexivity].
  simpl. apply last_of_type_lt in E. apply lookup_app_l. exact E.
Qed.

Lemma last_of_type_location cs :
  last_of_type LIMIT_LOCATION 0 cs None ≫= (cs !!.)
  = LimitLocationConstraint <$> last_location cs.
Proof.
  unfold last_location.
  induction cs as [|c cs IH] using rev_ind; [reflexivity|].
  rewrite last_of_type_snoc, foldl_snoc.
  destruct c as [l|r|t]; simpl.
  - rewrite list_lookup_middle by reflexivity. reflexivity.
  - rewrite <- IH. apply lookup_last_of_type_snoc.
  - rewrite <- IH. apply lookup_last_of_type_snoc.
Qed.

Lemma last_of_type_rotation cs :
  last_of_type LIMIT_ROTATION 0 cs None ≫= (cs !!.)
  = LimitRotationConstraint <$> last_rotation cs.
Proof.
  unfold last_rotation.
  induction cs as [|c cs IH] using rev_ind; [reflexivity|].
  rewrite last_of_type_snoc, foldl_snoc.
  destruct c as [l|r|t]; simpl.
  - rewrite <- IH. apply lookup_last_of_type_snoc.
  - rewrite list_lookup_middle by reflexivity. reflexivity.
  - rewrite <- IH. apply lookup_last_of_type_snoc.
Qed.

Lemma truthy_last_location cs :
  truthy (last_of_type LIMIT_LOCATION 0 cs None) = truthy (last_location cs).
Proof.
  pose proof (last_of_type_location cs) as H.
  destruct (last_of_type LIMIT_LOCATION 0 cs None) as [k|] eqn:E; simpl in H.
  - apply last_of_type_lt in E. apply lookup_lt_is_Some_2 in E as [c Hc].
    rewrite Hc in H. destruct (last_location cs); [reflexivity|discriminate].
  - destruct (last_location cs); [discriminate|reflexivity].
Qed.

Lemma run_rot_attr {A} (attr : LimitRotation.t -> A) s :
  rot_attr (last_of_type LIMIT_ROTATION 0 (constraints (joint s)) None) attr s
  = (match last_rotation (constraints (joint s)) with
     | Some r => Ok (attr r)
     | None => Raise (AttributeError "object has no such attribute")
     end, s).
Proof.
  unfold rot_attr, bind, get_joint. rewrite last_of_type_rotation.
  destruct (last_rotation (constraints (joint s))); reflexivity.
Qed.

Lemma run_loc_attr {A} (attr : LimitLocation.t -> A) s :
  loc_attr (last_of_type LIMIT_LOCATION 0 (constraints (joint s)) None) attr s
  = (match last_location (constraints (joint s)) with
     | Some l => Ok (attr l)
     | None => Raise (AttributeError "object has no such attribute")
     end, s).
Proof.
  unfold loc_attr, bind, get_joint. rewrite last_of_type_location.
  destruct (last_location (constraints (joint s))); reflexivity.
Qed.

(** ** deriveJointType *)

Lemma decide_type_total cs : exists jtype, decide_type (scan_constraints cs) = Ok jtype.
Proof.
  rewrite scan_constraints_last. unfold decide_type. simpl.
  destruct (last_location cs) as [l|]; simpl; [|eauto].
  destruct (last_rotation cs) as [r|]; simpl;
    repeat match goal with
           | |- context [if ?b then _ else _] => destruct b
           end; eauto.
Qed.

Lemma decide_type_known v jtype : decide_type v = Ok jtype -> jtype ∈ known_types.
Proof.
  unfold decide_type, known_types. intros H.
  repeat match type of H with
         | context [if ?b then _ else _] => destruct b
         | context [match ?x with Some _ => _ | None => _ end] => destruct x
         end; try discriminate H; injection H as <-; set_solver.
Qed.

(** The call returns the classification of the constraints, whatever the
    stored type and [adjust] are, and leaves all but the properties alone. *)
Lemma deriveJointType_run adjust s :
  exists s',
    run (deriveJointType adjust) s = (classification (constraints (joint s)), s')
    /\ constraints (joint s') = constraints (joint s)
    /\ name (joint s') = name (joint s)
    /\ phobostype (joint s') = phobostype (joint s)
    /\ bone_vector (joint s') = bone_vector (joint s).
Proof.
  unfold deriveJointType, classification, run, bind, get_joint, lift.
  destruct (decide_type (scan_constraints (constraints (joint s)))) as [t|e]; [|eauto 10].
  destruct (props (joint s) !! "joint/type") as [stored|]; [|eexists; split; [reflexivity|auto]].
  destruct (differs stored t); [|eexists; split; [reflexivity|auto]].
  destruct adjust; eexists; (split; [reflexivity|auto]).
Qed.

Lemma deriveJointType_result adjust s :
  fst (run (deriveJointType adjust) s) = classification (constraints (joint s)).
Proof.
  destruct (deriveJointType_run adjust s) as (s' & -> & _). reflexivity.
Qed.

Lemma deriveJointType_never_raises adjust s :
  exists jtype flags, fst (run (deriveJointType adjust) s) = Ok (jtype, flags).
Proof.
  rewrite deriveJointType_result. unfold classification.
  destruct (decide_type_total (constraints (joint s))) as [jtype ->]. eauto.
Qed.

Lemma derived_type_classification s :
  derived_type s = match classification (constraints (joint s)) with
                   | Ok (jtype, _) => Ok jtype
                   | Raise e => Raise e
                   end.
Proof. unfold derived_type. rewrite deriveJointType_result. reflexivity. Qed.

Lemma derived_type_known s jtype : derived_type s = Ok jtype -> jtype ∈ known_types.
Proof.
  rewrite derived_type_classification. unfold classification.
  destruct (decide_type (scan_constraints (constraints (joint s)))) as [t|e] eqn:E; [|discriminate].
  intros [= <-]. exact (decide_type_known _ _ E).
Qed.

Lemma classification_last cs :
  classification cs
  = match decide_type (mkScan (cloc_of <$> last_location cs) (crot_of <$> last_rotation cs)
                              (last_rotation cs)) with
    | Ok jtype => Ok (jtype, crot_of <$> last_rotation cs)
    | Raise e => Raise e
    end.
Proof. unfold classification. rewrite scan_constraints_last. reflexivity. Qed.

(** A joint derived as revolute or continuous has a rotation constraint, and
    a revolute one has a flag of [crot] set. *)
Lemma rotational_has_rotation cs jtype flags :
  classification cs = Ok (jtype, flags) ->
  jtype ∈ ["revolute"; "continuous"] ->
  exists r, last_rotation cs = Some r /\ flags = Some (crot_of r)
            /\ (jtype = "revolute" -> 0 < sum_flags (crot_of r)).
Proof.
  rewrite classification_last. unfold decide_type. simpl.
  destruct (last_location cs) as [l|]; simpl; [|intros [= <- <-] H; not_elem H].
  destruct (last_rotation cs) as [r|]; simpl.
  - intros H Ht. exists r. split; [reflexivity|].
    repeat match type of H with
           | context [if ?b then _ else _] => destruct b eqn:?
           end; injection H as <- <-; (split; [reflexivity|]); intros E; try discriminate E.
    all: try (apply Nat.ltb_lt; assumption).
    all: not_elem Ht.
  - intros H Ht.
    repeat match type of H with
           | context [if ?b then _ else _] => destruct b eqn:?
           end; injection H as <- <-; not_elem Ht.
Qed.

(** A joint derived as prismatic or planar has a location constraint. *)
Lemma translational_has_location cs jtype flags :
  classification cs = Ok (jtype, flags) ->
  jtype ∈ ["prismatic"; "planar"] ->
  exists l, last_location cs = Some l.
Proof.
  rewrite classification_last. unfold decide_type. simpl.
  destruct (last_location cs) as [l|]; simpl; [eauto|].
  intros [= <- <-] H. not_elem H.
Qed.

(** ** setJointConstraints *)

Lemma unknown_eqb t :
  t ∉ known_types ->
  String.eqb t "revolute" = false /\ String.eqb t "continuous" = false
  /\ String.eqb t "prismatic" = false /\ String.eqb t "fixed" = false
  /\ String.eqb t "floating" = false /\ String.eqb t "planar" = false.
Proof.
  intros H. repeat split; apply String.eqb_neq; intros ->; apply H;
    unfold known_types; set_solver.
Qed.

(** On a link the call succeeds, and its outcome depends on the state before
    only through the name, the bone and the properties of the object. *)
Lemma setJointConstraints_link s t lo up :
  phobostype (joint s) = "link" ->
  run (setJointConstraints t lo up) s
  = (Ok tt,
     mkState (mkJoint (name (joint s)) "link" (installed t lo up) (bone_vector (joint s))
                      (<["joint/type" := PStr t]> (props (joint s))))
             (active s) "OBJECT" (stdout s ++ logged t)).
Proof.
  intros H. unfold installed, logged, setJointConstraints. rewrite !clear_then.
  destruct s as [[n p cs b pr] a m o]. simpl in H. subst p.
  destruct (String.eqb t "revolute"); [rewrite app_nil_r; reflexivity|].
  destruct (String.eqb t "continuous"); [rewrite app_nil_r; reflexivity|].
  destruct (String.eqb t "prismatic").
  { destruct (PrimFloat.eqb lo up); rewrite app_nil_r; reflexivity. }
  destruct (String.eqb t "fixed"); [rewrite app_nil_r; reflexivity|].
  destruct (String.eqb t "floating"); [rewrite app_nil_r; reflexivity|].
  destruct (String.eqb t "planar"); [rewrite app_nil_r; reflexivity|].
  reflexivity.
Qed.

(** On an object that is no link only the constraints are removed. *)
Lemma setJointConstraints_other s t lo up :
  phobostype (joint s) <> "link" ->
  run (setJointConstraints t lo up) s
  = (Ok tt, mkState (set_constraints [] (joint s)) (active s) "POSE" (stdout s)).
Proof.
  intros H. unfold setJointConstraints. rewrite clear_then.
  apply String.eqb_neq in H.
  unfold run, bind, mode_set, get_joint, cleared, ret. simpl. rewrite H. reflexivity.
Qed.

Lemma installed_unknown t lo up : t ∉ known_types -> installed t lo up = [].
Proof.
  intros H. apply unknown_eqb in H as (E1 & E2 & E3 & E4 & E5 & E6).
  unfold installed, setJointConstraints. rewrite clear_then.
  rewrite E1, E2, E3, E4, E5, E6. reflexivity.
Qed.



(** The constraints installed for each known type. *)
Lemma installed_revolute lo up :
  installed "revolute" lo up
  = [locked_location;
     LimitRotationConstraint (LimitRotation.mk true true true 0 lo 0 0 up 0 "LOCAL")].
Proof. reflexivity. Qed.


Lemma installed_prismatic lo up :
  installed "prismatic" lo up
  = [LimitLocationConstraint
       (if PrimFloat.eqb lo up
        then LimitLocation.mk true false true true false true 0 0 0 0 0 0 "LOCAL"
        else LimitLocation.mk true true true true true true 0 lo 0 0 up 0 "LOCAL");
     locked_rotation].
Proof.
  unfold installed, setJointConstraints. rewrite clear_then.
  destruct (PrimFloat.eqb lo up); reflexivity.
Qed.




(** ** getJointConstraints, branch by branch *)

Lemma getJointConstraints_rotational normalized s jtype :
  derived_type s = Ok jtype ->
  jtype ∈ ["revolute"; "continuous"] ->
  exists r,
    last_rotation (constraints (joint s)) = Some r
    /\ fst (run (getJointConstraints normalized) s)
       = Ok (Some (normalized (bone_vector (joint s))), rotation_limits r)
    /\ (jtype = "revolute" -> is_Some (rotation_limits r)).
Proof.
  intros Hd Ht. rewrite derived_type_classification in Hd.
  destruct (classification (constraints (joint s))) as [[t flags]|e] eqn:Hc; [|discriminate].
  injection Hd as ->.
  destruct (rotational_has_rotation _ _ _ Hc Ht) as (r & Hr & -> & Hrev).
  exists r. split; [exact Hr|].
  destruct (deriveJointType_run true s) as (s' & Hrun & Hcs & _ & _ & Hb).
  rewrite Hc in Hrun. unfold run in Hrun.
  unfold rotation_limits.
  split.
  - unfold getJointConstraints, run, bind. rewrite Hrun.
    assert (Hin : is_in jtype ["floating"; "fixed"] = false
                  /\ is_in jtype ["revolute"; "continuous"] = true).
    { elem_cases Ht; split; reflexivity. }
    destruct Hin as [-> ->]. cbn [negb get_joint].
    destruct (crot_of r) as [[x y] z]. unfold getJointConstraint, bind, get_joint, ret.
    rewrite Hb.
    destruct x; [rewrite run_rot_attr, Hcs, Hr; reflexivity|].
    destruct y; [rewrite run_rot_attr, Hcs, Hr; reflexivity|].
    destruct z; [rewrite run_rot_attr, Hcs, Hr; reflexivity|].
    reflexivity.
  - intros E. specialize (Hrev E).
    destruct (crot_of r) as [[[] []] []]; simpl in *; eauto; lia.
Qed.

Lemma getJointConstraints_translational normalized s jtype :
  derived_type s = Ok jtype ->
  jtype ∈ ["prismatic"; "planar"] ->
  exists l,
    last_location (constraints (joint s)) = Some l
    /\ fst (run (getJointConstraints normalized) s)
       = if String.eqb jtype "prismatic" then prismatic_result normalized l (joint s)
         else planar_result l (joint s).
Proof.
  intros Hd Ht. rewrite derived_type_classification in Hd.
  destruct (classification (constraints (joint s))) as [[t flags]|e] eqn:Hc; [|discriminate].
  injection Hd as ->.
  destruct (translational_has_location _ _ _ Hc Ht) as (l & Hl).
  exists l. split; [exact Hl|].
  destruct (deriveJointType_run true s) as (s' & Hrun & Hcs & Hn & _ & Hb).
  rewrite Hc in Hrun. unfold run in Hrun.
  unfold getJointConstraints, run, bind. rewrite Hrun.
  unfold prismatic_result, planar_result, under_defined.
  rewrite <- Hcs in Hl.
  elem_cases Ht.
  all: cbn [is_in existsb String.eqb Ascii.eqb Bool.eqb orb negb andb].
  all: unfold getJointConstraint, bind, get_joint, ret.
  all: rewrite truthy_last_location, Hl, Hn, ?Hb.
  all: cbn [truthy negb].
  all: rewrite run_loc_attr, Hl.
  all: destruct (freeloc_of l) as [[x y] z].
  all: destruct x, y, z; cbn -[loc_attr last_of_type]; rewrite ?run_loc_attr, ?Hl; reflexivity.
Qed.

Lemma getJointConstraints_unconstrained normalized s jtype :
  derived_type s = Ok jtype ->
  jtype ∈ ["floating"; "fixed"] ->
  fst (run (getJointConstraints normalized) s) = Ok (None, None).
Proof.
  intros Hd Ht. rewrite derived_type_classification in Hd.
  destruct (classification (constraints (joint s))) as [[t flags]|e] eqn:Hc; [|discriminate].
  injection Hd as ->.
  destruct (deriveJointType_run true s) as (s' & Hrun & _).
  rewrite Hc in Hrun. unfold run in Hrun.
  unfold getJointConstraints, run, bind. rewrite Hrun.
  elem_cases Ht; reflexivity.
Qed.

(** ** The loop over the selected objects *)

(** A loop whose body never raises visits every object, and what the body
    establishes for one object holds for each of them afterwards. *)
Lemma for_each_Forall2 (body : Joint -> M unit) (R : Joint -> Joint -> Prop) :
  (forall link act md out,
      exists s', body link (mkState link act md out) = (Ok tt, s') /\ R link (joint s')) ->
  forall todo visited act md out,
    exists todo' act' md' out',
      for_each body visited todo act md out = (Ok tt, mkScene (visited ++ todo') act' md' out')
      /\ Forall2 R todo todo'.
Proof.
  intros Hbody. induction todo as [|link rest IH]; intros visited act md out.
  - exists [], act, md, out. rewrite app_nil_r. split; [reflexivity|constructor].
  - destruct (Hbody link act md out) as (s' & Hrun & HR). simpl. rewrite Hrun.
    destruct (IH (visited ++ [joint s']) (active s') (mode s') (stdout s'))
      as (todo' & act' & md' & out' & Hloop & Hall).
    exists (joint s' :: todo'), act', md', out'.
    rewrite Hloop, <- app_assoc. split; [reflexivity|]. constructor; assumption.
Qed.

Lemma execute_link_fixed self lower upper link act md out :
  DefineJointConstraintsOperator.joint_type self = "fixed" ->
  exists s',
    DefineJointConstraintsOperator.execute_link self lower upper link (mkState link act md out)
    = (Ok tt, s')
    /\ keeps_effort_and_velocity link (joint s').
Proof.
  intros Hfixed. unfold DefineJointConstraintsOperator.execute_link. rewrite Hfixed.
  unfold bind at 1. unfold set_active at 1. unfold bind at 1.
  change (setJointConstraints "fixed" lower upper ?s)
    with (run (setJointConstraints "fixed" lower upper) s).
  destruct (decide (phobostype link = "link")) as [Hlink|Hother].
  - rewrite setJointConstraints_link by exact Hlink.
    destruct (DefineJointConstraintsOperator.passive self); eexists; (split; [reflexivity|]);
      split; cbn; rewrite ?lookup_insert_ne by discriminate; reflexivity.
  - rewrite setJointConstraints_other by exact Hother.
    destruct (DefineJointConstraintsOperator.passive self); eexists; (split; [reflexivity|]);
      split; cbn; rewrite ?lookup_insert_ne by discriminate; reflexivity.
Qed.

Lemma execute_joint_attached self j act md out :
  exists s',
    AttachMotorOperator.execute_joint self j (mkState j act md out) = (Ok tt, s')
    /\ motor_attached self j (joint s').
Proof.
  unfold AttachMotorOperator.execute_joint, motor_attached.
  destruct (String.eqb (phobostype j) "link"); [|eexists; split; reflexivity].
  destruct (String.eqb (AttachMotorOperator.motortype self) "PID");
    eexists; (split; [reflexivity|]); cbn;
    repeat split;
    repeat first [rewrite lookup_insert_eq | rewrite lookup_insert_ne by discriminate];
    reflexivity.
Qed.

(** * The claims *)

(** ** C1: synthesis followed by classification *)


(** The same for every link: a revolute joint whose bounds are both 0 is
    derived as fixed. *)
Lemma revolute_zero_range s lower upper :
  phobostype (joint s) = "link" ->
  nonzero lower || nonzero upper = false ->
  derived_type (snd (run (setJointConstraints "revolute" lower upper) s)) = Ok "fixed".
Proof.
  intros Hlink Hzero.
  rewrite setJointConstraints_link, derived_type_classification by exact Hlink.
  cbn [snd joint constraints]. rewrite installed_revolute.
  unfold classification, scan_constraints. cbn. rewrite Hzero. reflexivity.
Qed.



(** ** C2: the limits of a synthesised prismatic joint *)

(** Whatever the bounds, the limits extracted from a synthesised prismatic
    joint are those of X, the first locked axis: (0, 0). *)
Lemma prismatic_limits_always_zero normalized s lower upper :
  phobostype (joint s) = "link" ->
  fst (run (getJointConstraints normalized)
           (snd (run (setJointConstraints "prismatic" lower upper) s)))
  = Ok (Some (normalized (bone_vector (joint s))), Some (Limits2 0 0)).
Proof.
  intros Hlink. rewrite setJointConstraints_link by exact Hlink. cbn [snd].
  rewrite installed_prismatic.
  match goal with |- fst (run _ ?s) = _ => set (s1 := s) end.
  assert (Hd : derived_type s1 = Ok "prismatic").
  { rewrite derived_type_classification. subst s1. cbn [joint constraints].
    destruct (PrimFloat.eqb lower upper) eqn:E; [reflexivity|].
    unfold classification, scan_constraints. cbn. rewrite E. reflexivity. }
  destruct (getJointConstraints_translational normalized s1 "prismatic" Hd) as (l & Hl & ->).
  { apply list_elem_of_here. }
  subst s1. cbn [joint constraints bone_vector] in Hl |- *.
  cbn in Hl. injection Hl as <-.
  unfold prismatic_result, freeloc_of.
  destruct (PrimFloat.eqb lower upper) eqn:E; cbn; rewrite ?E; reflexivity.
Qed.

(** C2 (the code at the failing input): after
    [setJointConstraints(joint, 'prismatic', -0.1, 0.1)] on a link,
    [getJointConstraints(joint)] returns the normalized bone vector as axis
    and (0, 0) as limits, not (-0.1, 0.1). *)
Theorem prismatic_limits_of_locked_axis normalized n cs b pr a m o :
  fst (run (getJointConstraints normalized)
           (snd (run (setJointConstraints "prismatic" (-0.1) 0.1)
                     (mkState (mkJoint n "link" cs b pr) a m o))))
  = Ok (Some (normalized b), Some (Limits2 0 0)).
Proof. apply (prismatic_limits_always_zero normalized (mkState (mkJoint n "link" cs b pr) a m o)). reflexivity. Qed.

(** ** C3: running the synthesis twice *)


(** ** C4: which translation axes count as locked *)

(** C4 (the code at the failing input): on a link whose X axis has
    min == max with the lower bound active and the upper bound inactive,
    [deriveJointType] counts X as locked and derives planar, although no axis
    has both bounds active. *)
Theorem deriveJointType_ignores_use_max :
  fst (run (deriveJointType false) min_only_link) = Ok ("planar", None)
  /\ cloc_of <$> last_location (constraints (joint min_only_link)) = Some (true, false, false)
  /\ freeloc_of <$> last_location (constraints (joint min_only_link)) = Some (false, false, false).
Proof. split; [|split]; vm_compute; reflexivity. Qed.

(** ** C5: axis and limits of revolute and continuous joints *)

(** C5, as stated, fails: the continuous joint that [setJointConstraints]
    synthesises has none of the three flags of [crot] set, and
    [getJointConstraints] does not fail on it: it returns the axis, and no
    limits. *)
Lemma continuous_axis_without_limits :
  fst (run (deriveJointType false) continuous_link) = Ok ("continuous", Some (false, false, false))
  /\ fst (run (getJointConstraints normalized64) continuous_link)
     = Ok (Some (mkVector 0 1 0), None).
Proof. split; vm_compute; reflexivity. Qed.

(** C5 (amended): for every link derived as revolute or continuous,
    [getJointConstraints] does not fail; the axis is the normalized bone
    vector, and the limits are the (min, max) of the first rotation axis, in
    the order X, Y, Z, whose flag is set, or absent when no flag is set, which
    does not happen for a revolute link. In every result axis and limits are
    both present or both absent, except for a continuous link, where the axis
    can come without limits. *)
Theorem getJointConstraints_axis_and_limits normalized s :
  (forall jtype,
      derived_type s = Ok jtype ->
      jtype ∈ ["revolute"; "continuous"] ->
      exists r,
        last_rotation (constraints (joint s)) = Some r
        /\ fst (run (getJointConstraints normalized) s)
           = Ok (Some (normalized (bone_vector (joint s))), rotation_limits r)
        /\ (jtype = "revolute" -> is_Some (rotation_limits r)))
  /\ (forall axis limits,
         fst (run (getJointConstraints normalized) s) = Ok (axis, limits) ->
         (is_Some axis /\ is_Some limits)
         \/ (axis = None /\ limits = None)
         \/ (derived_type s = Ok "continuous" /\ is_Some axis /\ limits = None)).
Proof.
  split; [intros jtype; apply getJointConstraints_rotational|].
  intros axis limits Hres.
  destruct (decide_type_total (constraints (joint s))) as [jtype Hdec].
  assert (Hd : derived_type s = Ok jtype).
  { rewrite derived_type_classification. unfold classification. rewrite Hdec. reflexivity. }
  pose proof (derived_type_known s jtype Hd) as Hk. unfold known_types in Hk.
  elem_cases Hk.
  - destruct (getJointConstraints_rotational normalized s "revolute" Hd) as (r & _ & Hr & Hsome);
      [set_solver|].
    rewrite Hr in Hres. injection Hres as <- <-. left. split; [eauto|auto].
  - destruct (getJointConstraints_rotational normalized s "continuous" Hd) as (r & _ & Hr & _);
      [set_solver|].
    rewrite Hr in Hres. injection Hres as <- <-.
    destruct (rotation_limits r) as [lim|]; [left; split; eauto|right; right; eauto].
  - destruct (getJointConstraints_translational normalized s "prismatic" Hd) as (l & _ & Hr);
      [set_solver|].
    rewrite Hr in Hres. cbn [String.eqb Ascii.eqb Bool.eqb] in Hres. unfold prismatic_result in Hres.
    destruct (freeloc_of l) as [[[] []] []]; try discriminate Hres;
      injection Hres as <- <-; left; split; eauto.
  - rewrite getJointConstraints_unconstrained with (jtype := "fixed") in Hres; [|exact Hd|set_solver].
    injection Hres as <- <-. right. left. split; reflexivity.
  - rewrite getJointConstraints_unconstrained with (jtype := "floating") in Hres; [|exact Hd|set_solver].
    injection Hres as <- <-. right. left. split; reflexivity.
  - destruct (getJointConstraints_translational normalized s "planar" Hd) as (l & _ & Hr);
      [set_solver|].
    rewrite Hr in Hres. cbn [String.eqb Ascii.eqb Bool.eqb] in Hres. unfold planar_result in Hres.
    destruct (freeloc_of l) as [[[] []] []]; try discriminate Hres;
      injection Hres as <- <-; left; split; eauto.
Qed.

(** ** C6: axis and limits of planar joints *)

(** C6, as stated, fails: on the planar joint that [setJointConstraints]
    synthesises, X and Z are free and Y is not, so two translation axes are
    free and not one; [getJointConstraints] raises nothing, and the axis it
    returns is the unit vector along Y, the axis that is not free. *)
Lemma planar_two_free_axes :
  derived_type planar_link = Ok "planar"
  /\ spec_free_axes <$> last_location (constraints (joint planar_link)) = Some (true, false, true)
  /\ fst (run (getJointConstraints normalized64) planar_link)
     = Ok (Some (mkVector 0 1 0), Some (Limits4 0 0 0 0)).
Proof. split; [|split]; vm_compute; reflexivity. Qed.

(** C6 (amended): for every link derived as planar, [getJointConstraints]
    requires exactly one translation axis locked with min == max and both
    bounds active, and otherwise raises the under-defined-constraints error;
    on success the axis is the unit vector along that locked axis and the
    limits are the (min, max) pairs of the other two axes: X locked gives
    (minY, maxY, minZ, maxZ), Y locked (minX, maxX, minZ, maxZ), Z locked
    (minX, maxX, minY, maxY). *)
Theorem getJointConstraints_planar normalized s :
  derived_type s = Ok "planar" ->
  exists l,
    last_location (constraints (joint s)) = Some l
    /\ fst (run (getJointConstraints normalized) s) = planar_result l (joint s).
Proof.
  intros Hd.
  destruct (getJointConstraints_translational normalized s "planar" Hd) as (l & Hl & Hr).
  - apply list_elem_of_further, list_elem_of_here.
  - exists l. split; [exact Hl|exact Hr].
Qed.

Lemma getJointConstraints_planar_witness :
  exists l,
    last_location (constraints (joint planar_link)) = Some l
    /\ fst (run (getJointConstraints normalized64) planar_link) = planar_result l (joint planar_link).
Proof. apply (getJointConstraints_planar normalized64 planar_link). vm_compute. reflexivity. Defined.

(** ** C7: fixed joints keep their effort and velocity entries *)

(** C7: when the joint type of the operator is 'fixed', [execute] finishes,
    and on every selected object [joint/maxeffort] and [joint/maxvelocity]
    read afterwards what they read before (nothing, where there was no such
    entry), whatever the operator's maxeffort and maxvelocity are. *)
Theorem execute_fixed_keeps_effort_and_velocity self context :
  DefineJointConstraintsOperator.joint_type self = "fixed" ->
  exists context',
    DefineJointConstraintsOperator.execute self context = (Ok "FINISHED", context')
    /\ Forall2 keeps_effort_and_velocity (selected_objects context) (selected_objects context').
Proof.
  intros Hfixed. unfold DefineJointConstraintsOperator.execute, for_selected_objects.
  match goal with
  | |- context [for_each ?body [] ?todo ?a ?m ?o] =>
      destruct (for_each_Forall2 body keeps_effort_and_velocity
                  (fun link act md out => execute_link_fixed self _ _ link act md out Hfixed)
                  todo [] a m o)
        as (todo' & act' & md' & out' & -> & Hall)
  end.
  eexists. split; [reflexivity|exact Hall].
Qed.

Lemma execute_fixed_keeps_effort_and_velocity_witness :
  exists context',
    DefineJointConstraintsOperator.execute fixed_operator example_scene = (Ok "FINISHED", context')
    /\ Forall2 keeps_effort_and_velocity (selected_objects example_scene) (selected_objects context').
Proof.
  apply (execute_fixed_keeps_effort_and_velocity fixed_operator example_scene). reflexivity.
Defined.

(** ** C8: attaching a motor *)

(** C8: [AttachMotorOperator.execute] finishes, and every selected object of
    phobostype 'link' then carries [motor/maxSpeed] = vmax * 2 * pi and
    [motor/maxEffort] = taumax, and carries [motor/p], [motor/i] and
    [motor/d] equal to P, I and D when the motor type is 'PID', while these
    three entries stay as they were for any other motor type; objects that
    are no links are unchanged. With vmax = 1.0, taumax = 2.0 and type PID the
    link of the example scene gets the speed 6.283185307179586, which is
    within 1e-5 of 6.28319, the effort 2.0, and P, I, D as given. *)
Theorem attach_motor self context :
  (exists context',
      AttachMotorOperator.execute self context = (Ok "FINISHED", context')
      /\ Forall2 (motor_attached self) (selected_objects context) (selected_objects context'))
  /\ (let stored key :=
        selected_objects (snd (AttachMotorOperator.execute pid_motor example_scene)) !! 0%nat
          ≫= (fun j => props j !! key) in
      stored "motor/maxSpeed" = Some (PFloat 6.283185307179586)
      /\ PrimFloat.ltb (abs (AttachMotorOperator.vmax pid_motor * 2 * pi - 6.28319)%float)
                       1e-5 = true
      /\ stored "motor/maxEffort" = Some (PFloat 2.0)
      /\ stored "motor/p" = Some (PFloat 1.5)
      /\ stored "motor/i" = Some (PFloat 0.25)
      /\ stored "motor/d" = Some (PFloat 0.125)).
Proof.
  split; [|cbn zeta; split; [|split; [|split; [|split; [|split]]]]; vm_compute; reflexivity].
  unfold AttachMotorOperator.execute, for_selected_objects.
  match goal with
  | |- context [for_each ?body [] ?todo ?a ?m ?o] =>
      destruct (for_each_Forall2 body (motor_attached self)
                  (fun j act md out => execute_joint_attached self j act md out)
                  todo [] a m o)
        as (todo' & act' & md' & out' & -> & Hall)
  end.
  eexists. split; [reflexivity|exact Hall].
Qed.

(** ** C9 and C10: an unknown joint type *)





(** * Further properties *)

(** ** deriveJointType *)

(** X1: [deriveJointType] raises nothing, whatever constraints the bone
    carries (the [sum(crot)] of the table is never reached with [crot] being
    [None]), and the type it returns is one of the six known types. *)
Theorem deriveJointType_total adjust s :
  exists jtype flags,
    fst (run (deriveJointType adjust) s) = Ok (jtype, flags)
    /\ jtype ∈ known_types.
Proof.
  rewrite deriveJointType_result. unfold classification.
  destruct (decide_type_total (constraints (joint s))) as [jtype Hdec].
  rewrite Hdec. exists jtype, (crot (scan_constraints (constraints (joint s)))).
  split; [reflexivity|]. exact (decide_type_known _ _ Hdec).
Qed.

(** X2: what [deriveJointType] returns depends only on the last
    'LIMIT_LOCATION' and the last 'LIMIT_ROTATION' constraint of the stack:
    two objects that agree on these get the same type and the same flags,
    whatever other or earlier constraints, stored types and [adjust] they
    differ in. *)
Theorem deriveJointType_last_constraints adjust adjust' s s' :
  last_location (constraints (joint s)) = last_location (constraints (joint s')) ->
  last_rotation (constraints (joint s)) = last_rotation (constraints (joint s')) ->
  fst (run (deriveJointType adjust) s) = fst (run (deriveJointType adjust') s').
Proof.
  intros Hl Hr. rewrite !deriveJointType_result, !classification_last, Hl, Hr. reflexivity.
Qed.

Lemma deriveJointType_last_constraints_witness :
  fst (run (deriveJointType false) revolute_link) = fst (run (deriveJointType true) cluttered_link).
Proof.
  apply (deriveJointType_last_constraints false true revolute_link cluttered_link);
    vm_compute; reflexivity.
Defined.

(** The run of [deriveJointType], with the state it ends in. *)
Lemma deriveJointType_state adjust s :
  exists jtype flags,
    classification (constraints (joint s)) = Ok (jtype, flags)
    /\ run (deriveJointType adjust) s
       = (Ok (jtype, flags),
          if mismatch (joint s) jtype then
            if adjust then
              mkState (set_prop "joint/type" (PStr jtype) (joint s)) (active s) (mode s)
                      ((stdout s ++ [mismatch_warning (joint s)])
                         ++ [Printed ("Changed type of joint'" +:+ name (joint s) +:+ " to "
                                        +:+ jtype +:+ "'.")])
            else mkState (joint s) (active s) (mode s) (stdout s ++ [mismatch_warning (joint s)])
          else s).
Proof.
  unfold classification, mismatch.
  destruct (decide_type_total (constraints (joint s))) as [jtype Hdec].
  exists jtype, (crot (scan_constraints (constraints (joint s)))).
  rewrite Hdec. split; [reflexivity|].
  unfold deriveJointType, run, bind, get_joint, lift. rewrite Hdec.
  destruct s as [j a m o]. cbn [joint active mode stdout].
  destruct (props j !! "joint/type") as [stored|]; [|reflexivity].
  destruct (differs stored jtype); [|reflexivity].
  destruct adjust; reflexivity.
Qed.

(** X3: without [adjust], [deriveJointType] changes nothing on the object;
    all it leaves behind is one warning, and that exactly when a type is
    stored under [joint/type] and differs from the derived one. *)
Theorem deriveJointType_without_adjust s :
  exists jtype flags,
    run (deriveJointType false) s
    = (Ok (jtype, flags),
       mkState (joint s) (active s) (mode s)
               (stdout s ++ if mismatch (joint s) jtype then [mismatch_warning (joint s)] else [])).
Proof.
  destruct (deriveJointType_state false s) as (jtype & flags & _ & ->).
  exists jtype, flags. destruct (mismatch (joint s) jtype); [reflexivity|].
  rewrite app_nil_r. destruct s; reflexivity.
Qed.

(** X4: with [adjust], [deriveJointType] repairs the stored type: afterwards
    [joint/type] holds the derived type if it was present before, and is still
    absent if it was absent; no other property is touched, and a second call
    returns the same, prints nothing and changes nothing. *)
Theorem deriveJointType_adjust_repairs s :
  let s1 := snd (run (deriveJointType true) s) in
  exists jtype flags,
    fst (run (deriveJointType true) s) = Ok (jtype, flags)
    /\ props (joint s1) !! "joint/type"
       = (fun _ => PStr jtype) <$> props (joint s) !! "joint/type"
    /\ (forall key, key <> "joint/type" -> props (joint s1) !! key = props (joint s) !! key)
    /\ run (deriveJointType true) s1 = (Ok (jtype, flags), s1).
Proof.
  cbn zeta.
  destruct (deriveJointType_state true s) as (jtype & flags & Hc & Hrun).
  exists jtype, flags. rewrite Hrun. cbn [fst snd]. split; [reflexivity|].
  unfold mismatch in *.
  destruct (props (joint s) !! "joint/type") as [stored|] eqn:Hstored.
  - destruct (differs stored jtype) eqn:Hdiff.
    + cbn [joint set_prop props]. rewrite lookup_insert_eq. split; [reflexivity|].
      split; [intros key Hkey; apply lookup_insert_ne; congruence|].
      match goal with |- run _ ?s1 = _ => destruct (deriveJointType_state true s1)
        as (jtype' & flags' & Hc' & Hrun') end.
      cbn [joint set_prop constraints] in Hc'. rewrite Hc in Hc'. injection Hc' as <- <-.
      rewrite Hrun'. unfold mismatch. cbn [joint set_prop props]. rewrite lookup_insert_eq.
      cbn [differs]. rewrite String.eqb_refl. reflexivity.
    + rewrite ?Hstored. destruct stored as [t| |]; try discriminate Hdiff.
      cbn [differs] in Hdiff. apply negb_false_iff, String.eqb_eq in Hdiff. subst t.
      split; [reflexivity|]. split; [reflexivity|].
      rewrite Hrun. reflexivity.
  - rewrite ?Hstored. split; [reflexivity|]. split; [reflexivity|].
    rewrite Hrun, ?Hstored. reflexivity.
Qed.

(** ** getJointConstraint *)

Lemma last_of_type_spec ctype cs :
  match last_of_type ctype 0 cs None with
  | Some i =>
      exists c, cs !! i = Some c /\ has_type c ctype = true
                /\ forall k c', i < k -> cs !! k = Some c' -> has_type c' ctype = false
  | None => forall c, c ∈ cs -> has_type c ctype = false
  end.
Proof.
  induction cs as [|c cs IH] using rev_ind.
  - simpl. intros c Hc. by apply elem_of_nil in Hc.
  - rewrite last_of_type_snoc. rewrite Nat.add_0_l.
    destruct (has_type c ctype) eqn:Hc.
    + exists c. split; [apply list_lookup_middle; reflexivity|]. split; [exact Hc|].
      intros k c' Hk Hlook. apply lookup_lt_Some in Hlook. rewrite length_app in Hlook.
      simpl in Hlook. lia.
    + destruct (last_of_type ctype 0 cs None) as [i|] eqn:E.
      * destruct IH as (d & Hd & Hty & Hlater). exists d.
        split; [rewrite lookup_app_l; [exact Hd|exact (last_of_type_lt _ _ _ E)]|].
        split; [exact Hty|].
        intros k c' Hk Hlook. destruct (decide (k < length cs)) as [Hlt|Hge].
        -- rewrite lookup_app_l in Hlook by exact Hlt. exact (Hlater k c' Hk Hlook).
        -- rewrite lookup_app_r in Hlook by lia.
           destruct (k - length cs) as [|n]; simpl in Hlook; [|discriminate Hlook].
           injection Hlook as <-. exact Hc.
      * intros d Hd. apply elem_of_app in Hd as [Hd|Hd]; [exact (IH d Hd)|].
        apply list_elem_of_singleton in Hd. subst d. exact Hc.
Qed.

(** X5: [getJointConstraint(joint, ctype)] raises nothing and changes
    nothing; it returns a reference to a constraint of type [ctype] after
    which the stack holds no further constraint of that type, and it returns
    [None] exactly when the stack holds no constraint of that type at all. *)
Theorem getJointConstraint_last ctype s :
  snd (run (getJointConstraint ctype) s) = s
  /\ match fst (run (getJointConstraint ctype) s) with
     | Ok (Some i) =>
         exists c, constraints (joint s) !! i = Some c /\ has_type c ctype = true
                   /\ forall k c', i < k -> constraints (joint s) !! k = Some c' ->
                                   has_type c' ctype = false
     | Ok None => forall c, c ∈ constraints (joint s) -> has_type c ctype = false
     | Raise _ => False
     end.
Proof.
  split; [reflexivity|].
  change (fst (run (getJointConstraint ctype) s))
    with (Ok (A := option nat) (last_of_type ctype 0 (constraints (joint s)) None)).
  apply last_of_type_spec.
Qed.

(** ** getJointConstraints: errors and effects *)

Lemma freeloc_cloc l : upper_bounds_active l = true -> freeloc_of l = cloc_of l.
Proof.
  unfold upper_bounds_active, freeloc_of, cloc_of.
  destruct (LimitLocation.use_min_x l), (LimitLocation.use_max_x l),
    (LimitLocation.use_min_y l), (LimitLocation.use_max_y l),
    (LimitLocation.use_min_z l), (LimitLocation.use_max_z l);
    simpl; intros H; try discriminate H; reflexivity.
Qed.

(** The count of locked axes behind a prismatic or planar classification. *)
Lemma derived_count s jtype l :
  derived_type s = Ok jtype ->
  last_location (constraints (joint s)) = Some l ->
  (jtype = "prismatic" -> sum_flags (cloc_of l) = 2)
  /\ (jtype = "planar" -> sum_flags (cloc_of l) = 1).
Proof.
  rewrite derived_type_classification, classification_last. intros H Hl. rewrite Hl in H.
  unfold decide_type in H. cbn [cloc crot limrot fmap option_fmap option_map truthy is_count] in H.
  destruct (Nat.eqb_spec (sum_flags (cloc_of l)) 3) as [E3|N3].
  - split; intros ->;
      repeat match type of H with
             | context [if ?b then _ else _] => destruct b
             | context [match ?x with Some _ => _ | None => _ end] => destruct x
             end; discriminate H.
  - destruct (Nat.eqb_spec (sum_flags (cloc_of l)) 2) as [E2|N2].
    + split; [intros _; exact E2|intros ->; discriminate H].
    + destruct (Nat.eqb_spec (sum_flags (cloc_of l)) 1) as [E1|N1].
      * split; [intros ->; discriminate H|intros _; exact E1].
      * split; intros ->; discriminate H.
Qed.

(** X6: [getJointConstraints] raises nothing but the under-defined-constraints
    exception, and raises it exactly when the joint is derived as prismatic
    without exactly two axes locked with both bounds active, or as planar
    without exactly one such axis. *)
Theorem getJointConstraints_raises normalized s e :
  fst (run (getJointConstraints normalized) s) = Raise e
  <-> e = under_defined (joint s)
      /\ exists l,
           last_location (constraints (joint s)) = Some l
           /\ ((derived_type s = Ok "prismatic" /\ sum_flags (freeloc_of l) <> 2)
               \/ (derived_type s = Ok "planar" /\ sum_flags (freeloc_of l) <> 1)).
Proof.
  split.
  - intros Hres.
    destruct (decide_type_total (constraints (joint s))) as [jtype Hdec].
    assert (Hd : derived_type s = Ok jtype).
    { rewrite derived_type_classification. unfold classification. rewrite Hdec. reflexivity. }
    pose proof (derived_type_known s jtype Hd) as Hk. unfold known_types in Hk.
    elem_cases Hk.
    + destruct (getJointConstraints_rotational normalized s "revolute" Hd) as (r & _ & Hr & _);
        [set_solver|]. rewrite Hr in Hres. discriminate Hres.
    + destruct (getJointConstraints_rotational normalized s "continuous" Hd) as (r & _ & Hr & _);
        [set_solver|]. rewrite Hr in Hres. discriminate Hres.
    + destruct (getJointConstraints_translational normalized s "prismatic" Hd) as (l & Hl & Hr);
        [set_solver|].
      rewrite Hr in Hres. cbn [String.eqb Ascii.eqb Bool.eqb] in Hres.
      unfold prismatic_result in Hres.
      destruct (freeloc_of l) as [[[] []] []] eqn:Hf; try discriminate Hres;
        injection Hres as <-; (split; [reflexivity|]); exists l; (split; [exact Hl|]);
        left; (split; [exact Hd|]); rewrite Hf; simpl; lia.
    + rewrite getJointConstraints_unconstrained with (jtype := "fixed") in Hres;
        [discriminate Hres|exact Hd|set_solver].
    + rewrite getJointConstraints_unconstrained with (jtype := "floating") in Hres;
        [discriminate Hres|exact Hd|set_solver].
    + destruct (getJointConstraints_translational normalized s "planar" Hd) as (l & Hl & Hr);
        [set_solver|].
      rewrite Hr in Hres. cbn [String.eqb Ascii.eqb Bool.eqb] in Hres.
      unfold planar_result in Hres.
      destruct (freeloc_of l) as [[[] []] []] eqn:Hf; try discriminate Hres;
        injection Hres as <-; (split; [reflexivity|]); exists l; (split; [exact Hl|]);
        right; (split; [exact Hd|]); rewrite Hf; simpl; lia.
  - intros (-> & l & Hl & [[Hd Hn]|[Hd Hn]]).
    + destruct (getJointConstraints_translational normalized s "prismatic" Hd) as (l' & Hl' & Hr);
        [set_solver|].
      rewrite Hl in Hl'. injection Hl' as <-. rewrite Hr.
      cbn [String.eqb Ascii.eqb Bool.eqb]. unfold prismatic_result.
      destruct (freeloc_of l) as [[[] []] []]; simpl in Hn; try reflexivity; lia.
    + destruct (getJointConstraints_translational normalized s "planar" Hd) as (l' & Hl' & Hr);
        [set_solver|].
      rewrite Hl in Hl'. injection Hl' as <-. rewrite Hr.
      cbn [String.eqb Ascii.eqb Bool.eqb]. unfold planar_result.
      destruct (freeloc_of l) as [[[] []] []]; simpl in Hn; try reflexivity; lia.
Qed.

(** When no lower bound is active without its upper bound, the extraction
    succeeds. *)
Lemma getJointConstraints_succeeds normalized s :
  (forall l, last_location (constraints (joint s)) = Some l -> upper_bounds_active l = true) ->
  exists axis limits, fst (run (getJointConstraints normalized) s) = Ok (axis, limits).
Proof.
  intros Hbounds.
  destruct (decide_type_total (constraints (joint s))) as [jtype Hdec].
  assert (Hd : derived_type s = Ok jtype).
  { rewrite derived_type_classification. unfold classification. rewrite Hdec. reflexivity. }
  pose proof (derived_type_known s jtype Hd) as Hk. unfold known_types in Hk.
  elem_cases Hk.
  - destruct (getJointConstraints_rotational normalized s "revolute" Hd) as (r & _ & Hr & _);
      [set_solver|eauto].
  - destruct (getJointConstraints_rotational normalized s "continuous" Hd) as (r & _ & Hr & _);
      [set_solver|eauto].
  - destruct (getJointConstraints_translational normalized s "prismatic" Hd) as (l & Hl & Hr);
      [set_solver|].
    destruct (derived_count s _ l Hd Hl) as [Hcount _]. specialize (Hcount eq_refl).
    rewrite <- (freeloc_cloc l (Hbounds l Hl)) in Hcount.
    rewrite Hr. cbn [String.eqb Ascii.eqb Bool.eqb]. unfold prismatic_result.
    destruct (freeloc_of l) as [[[] []] []]; simpl in Hcount; try discriminate Hcount; eauto.
  - rewrite getJointConstraints_unconstrained with (jtype := "fixed"); [eauto|exact Hd|set_solver].
  - rewrite getJointConstraints_unconstrained with (jtype := "floating"); [eauto|exact Hd|set_solver].
  - destruct (getJointConstraints_translational normalized s "planar" Hd) as (l & Hl & Hr);
      [set_solver|].
    destruct (derived_count s _ l Hd Hl) as [_ Hcount]. specialize (Hcount eq_refl).
    rewrite <- (freeloc_cloc l (Hbounds l Hl)) in Hcount.
    rewrite Hr. cbn [String.eqb Ascii.eqb Bool.eqb]. unfold planar_result.
    destruct (freeloc_of l) as [[[] []] []]; simpl in Hcount; try discriminate Hcount; eauto.
Qed.

(** X7: if on the last 'LIMIT_LOCATION' constraint of the bone no axis has
    its lower bound active without its upper bound, then [getJointConstraints]
    raises nothing: the under-defined-constraints error needs a lower bound
    that stands alone. *)
Theorem getJointConstraints_no_error normalized s :
  (forall l, last_location (constraints (joint s)) = Some l -> upper_bounds_active l = true) ->
  exists axis limits, fst (run (getJointConstraints normalized) s) = Ok (axis, limits).
Proof. exact (getJointConstraints_succeeds normalized s). Qed.

Lemma getJointConstraints_no_error_witness :
  exists axis limits, fst (run (getJointConstraints normalized64) cluttered_link) = Ok (axis, limits).
Proof.
  apply (getJointConstraints_no_error normalized64 cluttered_link).
  intros l Hl. vm_compute in Hl. injection Hl as <-. reflexivity.
Defined.

(** What follows [deriveJointType] in [getJointConstraints] only reads. *)
Lemma getJointConstraints_state normalized s :
  snd (run (getJointConstraints normalized) s) = snd (run (deriveJointType true) s).
Proof.
  unfold getJointConstraints, run, bind.
  destruct (deriveJointType true s) as [[[jt flags]|e] s']; [|reflexivity].
  unfold getJointConstraint, rot_attr, loc_attr, no_attribute, raise, ret, bind, get_joint.
  cbn [snd].
  repeat match goal with
         | |- context [if ?b then _ else _] => destruct b
         | |- context [match ?x with Some _ => _ | None => _ end] => destruct x
         | |- context [match ?x with
                       | LimitLocationConstraint _ => _
                       | LimitRotationConstraint _ => _
                       | OtherConstraint _ => _
                       end] => destruct x
         | |- context [let '(_, _) := ?x in _] => destruct x
         end; reflexivity.
Qed.

(** X8: [getJointConstraints] never changes the constraints, the bone, the
    name, the phobostype, the editor mode or any property other than
    [joint/type], whether it returns or raises; [joint/type] is repaired as
    by [deriveJointType] with [adjust]: it holds the derived type afterwards
    if it was present, and stays absent otherwise. *)
Theorem getJointConstraints_effect normalized s :
  let s1 := snd (run (getJointConstraints normalized) s) in
  constraints (joint s1) = constraints (joint s)
  /\ bone_vector (joint s1) = bone_vector (joint s)
  /\ name (joint s1) = name (joint s)
  /\ phobostype (joint s1) = phobostype (joint s)
  /\ mode s1 = mode s
  /\ (forall key, key <> "joint/type" -> props (joint s1) !! key = props (joint s) !! key)
  /\ exists jtype,
       derived_type s = Ok jtype
       /\ props (joint s1) !! "joint/type"
          = (fun _ => PStr jtype) <$> props (joint s) !! "joint/type".
Proof.
  cbn zeta. rewrite getJointConstraints_state.
  destruct (deriveJointType_state true s) as (jtype & flags & Hc & Hrun).
  rewrite Hrun. cbn [snd].
  assert (Hd : derived_type s = Ok jtype).
  { rewrite derived_type_classification, Hc. reflexivity. }
  unfold mismatch.
  destruct (props (joint s) !! "joint/type") as [stored|] eqn:Hstored.
  - destruct (differs stored jtype) eqn:Hdiff.
    + cbn [joint set_prop constraints bone_vector name phobostype mode props].
      repeat (split; [reflexivity|]).
      split; [intros key Hkey; apply lookup_insert_ne; congruence|].
      exists jtype. split; [exact Hd|]. apply lookup_insert_eq.
    + repeat (split; [reflexivity|]). exists jtype. split; [exact Hd|].
      rewrite Hstored. destruct stored as [t| |]; try discriminate Hdiff.
      cbn [differs] in Hdiff. apply negb_false_iff, String.eqb_eq in Hdiff. subst t. reflexivity.
  - repeat (split; [reflexivity|]). exists jtype. split; [exact Hd|]. rewrite Hstored. reflexivity.
Qed.

(** ** Synthesis followed by extraction *)












(** ** setJointConstraints: what it touches *)





(** X15: [lower] and [upper] matter only for revolute and prismatic joints:
    for every other joint type, known or not, [setJointConstraints] ends in
    the same state whatever the two bounds are. *)
Theorem setJointConstraints_ignores_bounds s jointtype lower upper lower' upper' :
  jointtype <> "revolute" ->
  jointtype <> "prismatic" ->
  run (setJointConstraints jointtype lower upper) s
  = run (setJointConstraints jointtype lower' upper') s.
Proof.
  intros Hrev Hpri.
  destruct (decide (phobostype (joint s) = "link")) as [Hlink|Hother].
  - rewrite !setJointConstraints_link by exact Hlink.
    replace (installed jointtype lower' upper') with (installed jointtype lower upper); [reflexivity|].
    destruct (decide (jointtype ∈ known_types)) as [Hk|Hu].
    + unfold known_types in Hk. elem_cases Hk; try contradiction; reflexivity.
    + rewrite !installed_unknown by exact Hu. reflexivity.
  - rewrite !setJointConstraints_other by exact Hother. reflexivity.
Qed.

Lemma setJointConstraints_ignores_bounds_witness :
  run (setJointConstraints "planar" 0 1) cluttered_link
  = run (setJointConstraints "planar" 2 3) cluttered_link.
Proof.
  apply (setJointConstraints_ignores_bounds cluttered_link "planar" 0 1 2 3); discriminate.
Defined.

(** ** The two operators *)

Lemma Forall2_eq_fmap {A B} (f : A -> B) (xs : list A) (ys : list B) :
  Forall2 (fun x y => y = f x) xs ys -> ys = f <$> xs.
Proof. induction 1 as [|x y xs ys -> _ ->]; reflexivity. Qed.

(** One turn of the loop of [DefineJointConstraintsOperator.execute]. *)
Lemma execute_link_run self lo up link act md out :
  DefineJointConstraintsOperator.execute_link self lo up link (mkState link act md out)
  = (Ok tt,
     if String.eqb (phobostype link) "link"
     then mkState (mkJoint (name link) "link"
                     (installed (DefineJointConstraintsOperator.joint_type self) lo up)
                     (bone_vector link)
                     (effort_and_passive self
                        (<["joint/type" := PStr (DefineJointConstraintsOperator.joint_type self)]>
                           (props link))))
                  (Some (name link)) "OBJECT"
                  (out ++ logged (DefineJointConstraintsOperator.joint_type self))
     else mkState (mkJoint (name link) (phobostype link) [] (bone_vector link)
                     (effort_and_passive self (props link)))
                  (Some (name link)) "POSE" out).
Proof.
  unfold DefineJointConstraintsOperator.execute_link, effort_and_passive.
  unfold bind at 1. unfold set_active at 1. unfold bind at 1.
  change (setJointConstraints ?t lo up ?s) with (run (setJointConstraints t lo up) s).
  destruct (String.eqb_spec (phobostype link) "link") as [Hlink|Hother].
  - rewrite setJointConstraints_link by exact Hlink.
    destruct (String.eqb (DefineJointConstraintsOperator.joint_type self) "fixed"),
      (DefineJointConstraintsOperator.passive self); reflexivity.
  - rewrite setJointConstraints_other by exact Hother.
    destruct (String.eqb (DefineJointConstraintsOperator.joint_type self) "fixed"),
      (DefineJointConstraintsOperator.passive self); reflexivity.
Qed.

Lemma execute_link_constrained self link act md out :
  exists s',
    DefineJointConstraintsOperator.execute_link self (passed_lower self) (passed_upper self)
      link (mkState link act md out) = (Ok tt, s')
    /\ joint s' = constrained self link.
Proof.
  unfold constrained. rewrite !execute_link_run. eexists. split; [reflexivity|].
  destruct (String.eqb (phobostype link) "link"); reflexivity.
Qed.

Lemma constrained_eq self link :
  constrained self link
  = if String.eqb (phobostype link) "link"
    then mkJoint (name link) "link"
           (installed (DefineJointConstraintsOperator.joint_type self)
                      (passed_lower self) (passed_upper self))
           (bone_vector link)
           (effort_and_passive self
              (<["joint/type" := PStr (DefineJointConstraintsOperator.joint_type self)]>
                 (props link)))
    else mkJoint (name link) (phobostype link) [] (bone_vector link)
           (effort_and_passive self (props link)).
Proof.
  unfold constrained. rewrite execute_link_run.
  destruct (String.eqb (phobostype link) "link"); reflexivity.
Qed.

(** The operator takes every selected object to [constrained]. *)
Lemma execute_constrained self context :
  exists act md out,
    DefineJointConstraintsOperator.execute self context
    = (Ok "FINISHED", mkScene (constrained self <$> selected_objects context) act md out).
Proof.
  unfold DefineJointConstraintsOperator.execute, for_selected_objects.
  fold (passed_lower self). fold (passed_upper self).
  match goal with
  | |- context [for_each ?body [] ?todo ?a ?m ?o] =>
      destruct (for_each_Forall2 body (fun l l' => l' = constrained self l)
                  (execute_link_constrained self) todo [] a m o)
        as (todo' & act' & md' & out' & -> & Hall)
  end.
  apply Forall2_eq_fmap in Hall. subst todo'. eauto.
Qed.

(** One turn of the loop of [AttachMotorOperator.execute]. *)
Lemma execute_joint_run self j act md out :
  AttachMotorOperator.execute_joint self j (mkState j act md out)
  = (Ok tt,
     mkState (if String.eqb (phobostype j) "link"
              then mkJoint (name j) (phobostype j) (constraints j) (bone_vector j)
                           (motor_props self (props j))
              else j)
             act md out).
Proof.
  unfold AttachMotorOperator.execute_joint, motor_props.
  destruct (String.eqb (phobostype j) "link"); [|reflexivity].
  destruct (String.eqb (AttachMotorOperator.motortype self) "PID"); reflexivity.
Qed.

Lemma motorized_eq self j :
  motorized self j
  = if String.eqb (phobostype j) "link"
    then mkJoint (name j) (phobostype j) (constraints j) (bone_vector j)
                 (motor_props self (props j))
    else j.
Proof. unfold motorized. rewrite execute_joint_run. reflexivity. Qed.

Lemma for_each_session (body : Joint -> M unit) (f : Joint -> Joint) :
  (forall j act md out, body j (mkState j act md out) = (Ok tt, mkState (f j) act md out)) ->
  forall todo visited act md out,
    for_each body visited todo act md out
    = (Ok tt, mkScene (visited ++ (f <$> todo)) act md out).
Proof.
  intros Hbody. induction todo as [|j rest IH]; intros visited act md out; simpl.
  - rewrite app_nil_r. reflexivity.
  - rewrite Hbody. cbn [joint active mode stdout]. rewrite IH, <- app_assoc. reflexivity.
Qed.

(** The operator takes every selected object to [motorized] and leaves the
    session alone. *)
Lemma execute_motorized self context :
  AttachMotorOperator.execute self context
  = (Ok "FINISHED",
     mkScene (motorized self <$> selected_objects context)
             (scene_active context) (scene_mode context) (scene_stdout context)).
Proof.
  unfold AttachMotorOperator.execute, for_selected_objects.
  rewrite (for_each_session _ (motorized self)); [reflexivity|].
  intros j act md out. rewrite execute_joint_run, motorized_eq. reflexivity.
Qed.

Lemma Forall2_fmap_self {A B} (R : A -> B -> Prop) (f : A -> B) (xs : list A) :
  (forall x, R x (f x)) -> Forall2 R xs (f <$> xs).
Proof. intros H. induction xs; constructor; auto. Qed.





Lemma effort_and_passive_absorbs self key v pr :
  effort_and_passive self (<[key := v]> (effort_and_passive self (<[key := v]> pr)))
  = effort_and_passive self (<[key := v]> pr).
Proof.
  unfold effort_and_passive.
  destruct (negb _), (DefineJointConstraintsOperator.passive self);
    apply map_eq; intros k; rewrite ?lookup_insert; repeat case_decide; congruence.
Qed.

Lemma effort_and_passive_idempotent self pr :
  effort_and_passive self (effort_and_passive self pr) = effort_and_passive self pr.
Proof.
  unfold effort_and_passive.
  destruct (negb _), (DefineJointConstraintsOperator.passive self);
    apply map_eq; intros k; rewrite ?lookup_insert; repeat case_decide; congruence.
Qed.

Lemma constrained_idempotent self link :
  constrained self (constrained self link) = constrained self link.
Proof.
  rewrite (constrained_eq self link).
  destruct (String.eqb_spec (phobostype link) "link") as [Hlink|Hother].
  - rewrite constrained_eq. cbn [phobostype name bone_vector props String.eqb Ascii.eqb Bool.eqb].
    rewrite effort_and_passive_absorbs. reflexivity.
  - rewrite constrained_eq. cbn [phobostype name bone_vector props].
    apply String.eqb_neq in Hother. rewrite Hother, effort_and_passive_idempotent. reflexivity.
Qed.

(** X19: running [DefineJointConstraintsOperator.execute] a second time on
    the scene it has left changes none of the selected objects. *)
Theorem execute_idempotent self context :
  let once := snd (DefineJointConstraintsOperator.execute self context) in
  selected_objects (snd (DefineJointConstraintsOperator.execute self once))
  = selected_objects once.
Proof.
  cbn zeta.
  destruct (execute_constrained self context) as (act & md & out & ->). cbn [snd].
  match goal with |- context [DefineJointConstraintsOperator.execute self ?sc] =>
    destruct (execute_constrained self sc) as (act' & md' & out' & ->) end.
  cbn [snd selected_objects]. rewrite <- list_fmap_compose.
  apply list_fmap_ext. intros i link _. apply constrained_idempotent.
Qed.



(** ** AttachMotorOperator *)

Lemma not_motor_key key :
  key ∉ motor_keys ->
  "motor/p" <> key /\ "motor/i" <> key /\ "motor/d" <> key
  /\ "motor/maxSpeed" <> key /\ "motor/maxEffort" <> key /\ "motor/type" <> key.
Proof.
  intros H. repeat split; intros <-; apply H; unfold motor_keys; set_solver.
Qed.

Lemma motor_props_lookup self pr key :
  key ∉ motor_keys -> motor_props self pr !! key = pr !! key.
Proof.
  intros H. apply not_motor_key in H as (H1 & H2 & H3 & H4 & H5 & H6).
  unfold motor_props. destruct (String.eqb (AttachMotorOperator.motortype self) "PID");
    repeat (rewrite lookup_insert_ne by assumption); reflexivity.
Qed.

(** X21: [AttachMotorOperator.execute] changes nothing but the six motor
    entries: on every selected object the name, the phobostype, the bone, the
    constraints and every property under another key are as before; on every
    selected link [motor/type] holds the motor type of the operator. *)
Theorem attach_motor_frame self context :
  Forall2 (motor_frame self) (selected_objects context)
          (selected_objects (snd (AttachMotorOperator.execute self context))).
Proof.
  rewrite execute_motorized. cbn [snd selected_objects].
  apply Forall2_fmap_self. intros j. rewrite motorized_eq. unfold motor_frame.
  destruct (String.eqb_spec (phobostype j) "link") as [Hlink|Hother].
  - cbn [name phobostype bone_vector constraints props]. do 4 (split; [reflexivity|]).
    split; [intros key Hkey; apply motor_props_lookup; exact Hkey|].
    intros _. unfold motor_props. apply lookup_insert_eq.
  - do 4 (split; [reflexivity|]). split; [reflexivity|]. intros Hlink. contradiction.
Qed.

Lemma motor_props_idempotent self pr :
  motor_props self (motor_props self pr) = motor_props self pr.
Proof.
  unfold motor_props. destruct (String.eqb (AttachMotorOperator.motortype self) "PID");
    apply map_eq; intros k; rewrite !lookup_insert; repeat case_decide; congruence.
Qed.

Lemma motorized_idempotent self j : motorized self (motorized self j) = motorized self j.
Proof.
  rewrite (motorized_eq self j).
  destruct (String.eqb (phobostype j) "link") eqn:E.
  - rewrite motorized_eq. cbn [phobostype name bone_vector constraints props].
    rewrite E, motor_props_idempotent. reflexivity.
  - rewrite motorized_eq, E. reflexivity.
Qed.

(** X22: running [AttachMotorOperator.execute] a second time on the scene it
    has left changes nothing: it returns the same and leaves the same scene. *)
Theorem attach_motor_idempotent self context :
  AttachMotorOperator.execute self (snd (AttachMotorOperator.execute self context))
  = AttachMotorOperator.execute self context.
Proof.
  rewrite !execute_motorized. cbn [snd selected_objects scene_active scene_mode scene_stdout].
  rewrite <- list_fmap_compose. f_equal. f_equal.
  apply list_fmap_ext. intros i j _. apply motorized_idempotent.
Qed.

Lemma motor_props_insert self key v pr :
  key ∉ motor_keys ->
  motor_props self (<[key := v]> pr) = <[key := v]> (motor_props self pr).
Proof.
  intros H. apply not_motor_key in H as (H1 & H2 & H3 & H4 & H5 & H6).
  unfold motor_props. destruct (String.eqb (AttachMotorOperator.motortype self) "PID").
  - rewrite (insert_insert_ne _ "motor/p" key) by assumption.
    rewrite (insert_insert_ne _ "motor/i" key) by assumption.
    rewrite (insert_insert_ne _ "motor/d" key) by assumption.
    rewrite (insert_insert_ne _ "motor/maxSpeed" key) by assumption.
    rewrite (insert_insert_ne _ "motor/maxEffort" key) by assumption.
    rewrite (insert_insert_ne _ "motor/type" key) by assumption. reflexivity.
  - rewrite (insert_insert_ne _ "motor/maxSpeed" key) by assumption.
    rewrite (insert_insert_ne _ "motor/maxEffort" key) by assumption.
    rewrite (insert_insert_ne _ "motor/type" key) by assumption. reflexivity.
Qed.

Lemma joint_keys_no_motor_keys :
  ("joint/type" ∉ motor_keys) /\ ("joint/maxeffort" ∉ motor_keys)
  /\ ("joint/maxvelocity" ∉ motor_keys) /\ ("joint/passive" ∉ motor_keys).
Proof. repeat split; intros H; unfold motor_keys in H; not_elem H. Qed.

Lemma motor_props_effort_and_passive a d pr :
  motor_props a (effort_and_passive d pr) = effort_and_passive d (motor_props a pr).
Proof.
  destruct joint_keys_no_motor_keys as (_ & H2 & H3 & H4).
  unfold effort_and_passive.
  destruct (negb _), (DefineJointConstraintsOperator.passive d);
    rewrite ?motor_props_insert by assumption; reflexivity.
Qed.

Lemma motorized_constrained a d j :
  motorized a (constrained d j) = constrained d (motorized a j).
Proof.
  destruct joint_keys_no_motor_keys as (H1 & _).
  rewrite (constrained_eq d j), (motorized_eq a j).
  destruct (String.eqb (phobostype j) "link") eqn:E.
  - rewrite motorized_eq, constrained_eq. cbn [phobostype name bone_vector constraints props].
    rewrite E. cbn [String.eqb Ascii.eqb Bool.eqb].
    rewrite motor_props_effort_and_passive, motor_props_insert by assumption.
    reflexivity.
  - rewrite motorized_eq, constrained_eq. cbn [phobostype]. rewrite E. reflexivity.
Qed.

(** X23: the two operators do not interfere: setting the constraints and then
    attaching the motor leaves the selected objects as attaching the motor
    and then setting the constraints does. *)
Theorem operators_commute a d context :
  selected_objects
    (snd (AttachMotorOperator.execute a (snd (DefineJointConstraintsOperator.execute d context))))
  = selected_objects
      (snd (DefineJointConstraintsOperator.execute d (snd (AttachMotorOperator.execute a context)))).
Proof.
  rewrite !execute_motorized. cbn [snd selected_objects].
  destruct (execute_constrained d context) as (act & md & out & ->).
  match goal with |- context [DefineJointConstraintsOperator.execute d ?sc] =>
    destruct (execute_constrained d sc) as (act' & md' & out' & ->) end.
  cbn [snd selected_objects]. rewrite <- !list_fmap_compose.
  apply list_fmap_ext. intros i j _. apply motorized_constrained.
Qed.

(** ** The remaining branches of the classification and the extraction *)

Lemma sum_flags_le f : sum_flags f <= 3.
Proof. destruct f as [[[] []] []]; simpl; lia. Qed.

(** X24: the fallback of the decision table: [deriveJointType] derives
    floating exactly when the bone has no 'LIMIT_LOCATION' constraint, or its
    last one locks no axis, or it locks all three axes while the last
    'LIMIT_ROTATION' constraint is missing or has fewer than two limits
    active. *)
Theorem deriveJointType_floating s :
  derived_type s = Ok "floating"
  <-> match last_location (constraints (joint s)) with
      | None => True
      | Some l =>
          sum_flags (cloc_of l) = 0
          \/ (sum_flags (cloc_of l) = 3
              /\ match last_rotation (constraints (joint s)) with
                 | None => True
                 | Some r => active_limits r < 2
                 end)
      end.
Proof.
  rewrite derived_type_classification, classification_last. unfold decide_type, active_limits.
  destruct (last_location (constraints (joint s))) as [l|];
    cbn [cloc crot limrot fmap option_fmap option_map truthy is_count]; [|tauto].
  pose proof (sum_flags_le (cloc_of l)) as Hn.
  destruct (Nat.eqb_spec (sum_flags (cloc_of l)) 3) as [E3|N3].
  - destruct (last_rotation (constraints (joint s))) as [r|];
      cbn [fmap option_fmap option_map is_count]; [|split; auto].
    pose proof (sum_flags_le (LimitRotation.use_limit_x r, LimitRotation.use_limit_y r,
                              LimitRotation.use_limit_z r)) as Hm.
    destruct (Nat.eqb_spec (sum_flags (LimitRotation.use_limit_x r, LimitRotation.use_limit_y r,
                                       LimitRotation.use_limit_z r)) 3) as [F3|M3].
    + destruct (Nat.ltb 0 (sum_flags (crot_of r))); split;
        [discriminate|intros [?|[_ ?]]; lia|discriminate|intros [?|[_ ?]]; lia].
    + destruct (Nat.eqb_spec (sum_flags (LimitRotation.use_limit_x r, LimitRotation.use_limit_y r,
                                         LimitRotation.use_limit_z r)) 2) as [F2|M2].
      * split; [discriminate|intros [?|[_ ?]]; lia].
      * split; [intros _; right; split; [exact E3|lia]|reflexivity].
  - destruct (Nat.eqb_spec (sum_flags (cloc_of l)) 2) as [E2|N2];
      [split; [discriminate|intros [?|[? _]]; lia]|].
    destruct (Nat.eqb_spec (sum_flags (cloc_of l)) 1) as [E1|N1];
      [split; [discriminate|intros [?|[? _]]; lia]|].
    split; [intros _; left; lia|reflexivity].
Qed.

(** X25: for every object derived as floating or fixed, [getJointConstraints]
    returns neither an axis nor limits. *)
Theorem getJointConstraints_fixed_floating normalized s jtype :
  derived_type s = Ok jtype ->
  jtype ∈ ["floating"; "fixed"] ->
  fst (run (getJointConstraints normalized) s) = Ok (None, None).
Proof. exact (getJointConstraints_unconstrained normalized s jtype). Qed.

Lemma getJointConstraints_fixed_floating_witness :
  fst (run (getJointConstraints normalized64)
           (snd (run (setJointConstraints "fixed" 0 0) example_link)))
  = Ok (None, None).
Proof.
  apply (getJointConstraints_fixed_floating normalized64 _ "fixed").
  - vm_compute. reflexivity.
  - apply list_elem_of_further, list_elem_of_here.
Defined.

(** X26: for every object derived as prismatic, [getJointConstraints]
    requires exactly two translation axes locked with min == max and both
    bounds active, and raises the under-defined-constraints error otherwise;
    on success the axis is the normalized bone vector, and the limits are the
    (min, max) of the first locked axis in the order X, Y, Z, hence a pair of
    two equal numbers, not the range of the axis that can move. *)
Theorem getJointConstraints_prismatic normalized s :
  derived_type s = Ok "prismatic" ->
  exists l,
    last_location (constraints (joint s)) = Some l
    /\ fst (run (getJointConstraints normalized) s) = prismatic_result normalized l (joint s)
    /\ forall axis lo hi,
         prismatic_result normalized l (joint s) = Ok (axis, Some (Limits2 lo hi)) ->
         PrimFloat.eqb lo hi = true.
Proof.
  intros Hd.
  destruct (getJointConstraints_translational normalized s "prismatic" Hd) as (l & Hl & Hr).
  - apply list_elem_of_here.
  - exists l. split; [exact Hl|]. split; [exact Hr|].
    intros axis lo hi. unfold prismatic_result, freeloc_of.
    destruct (LimitLocation.use_min_x l && LimitLocation.use_max_x l
              && PrimFloat.eqb (LimitLocation.min_x l) (LimitLocation.max_x l)) eqn:Ex;
      destruct (LimitLocation.use_min_y l && LimitLocation.use_max_y l
                && PrimFloat.eqb (LimitLocation.min_y l) (LimitLocation.max_y l)) eqn:Ey;
      destruct (LimitLocation.use_min_z l && LimitLocation.use_max_z l
                && PrimFloat.eqb (LimitLocation.min_z l) (LimitLocation.max_z l)) eqn:Ez;
      intros H; try discriminate H; injection H as _ <- <-.
    + apply andb_true_iff in Ex as [_ Ex]. exact Ex.
    + apply andb_true_iff in Ex as [_ Ex]. exact Ex.
    + apply andb_true_iff in Ey as [_ Ey]. exact Ey.
Qed.

Lemma getJointConstraints_prismatic_witness :
  exists l,
    last_location (constraints (joint prismatic_link)) = Some l
    /\ fst (run (getJointConstraints normalized64) prismatic_link)
       = prismatic_result normalized64 l (joint prismatic_link)
    /\ forall axis lo hi,
         prismatic_result normalized64 l (joint prismatic_link) = Ok (axis, Some (Limits2 lo hi)) ->
         PrimFloat.eqb lo hi = true.
Proof. apply (getJointConstraints_prismatic normalized64 prismatic_link). vm_compute. reflexivity. Defined.
